(** * TrackMIDA: the MIDI to MIDA encoder of [midi_to_mida.py]

    A shallow embedding of the conversion core (track classification,
    pitch naming, velocity classes, the percussion and melodic timeline
    encoders and the document assembly of [main]) together with the
    properties stated about it.

    Python integers are [Z]; [//] and [%] are [Z.div] and [Z.modulo]
    (both floor towards minus infinity, as Python does), with the
    [ZeroDivisionError] of a zero divisor written out.  Python [str] is
    [string], a [set] of pitches is a [gset Z], the [defaultdict(list)]
    of percussion hits is an insertion-ordered association list. *)

From stdpp Require Import gmap strings list pretty sorting.

Local Open Scope Z_scope.

(** ** Exceptions the core can raise *)

Inductive exn : Set :=
| ZeroDivisionError
| IndexError.

Inductive res (A : Type) : Type :=
| Ok (a : A)
| Raise (e : exn).

Arguments Ok {A} a.
Arguments Raise {A} e.

#[global] Instance res_ret : MRet res := fun A a => Ok a.
#[global] Instance res_bind : MBind res := fun A B f m =>
  match m with
  | Ok a => f a
  | Raise e => Raise e
  end.

Definition returns {A : Type} (m : res A) : Prop := exists a, m = Ok a.

(** [a // b] *)
Definition floordiv (a b : Z) : res Z :=
  if decide (b = 0) then Raise ZeroDivisionError else Ok (a `div` b).

(** The position [l[i]] designates in a list of length [len]: negative
    indices count from the end, anything else is an [IndexError]. *)
Definition py_index (len i : Z) : res nat :=
  if decide (0 <= i < len) then Ok (Z.to_nat i)
  else if decide (- len <= i < 0) then Ok (Z.to_nat (len + i))
  else Raise IndexError.

(** [l.insert(i, x)] for a non-negative [i] (the index is clamped to the
    length). *)
Definition py_insert {A : Type} (i : nat) (x : A) (l : list A) : list A :=
  take i l ++ x :: drop i l.

(** [max(l)] on a non-empty list; the source guards every call by a test
    that the list is not empty. *)
Definition py_max (l : list Z) : Z :=
  match l with
  | [] => 0
  | x :: xs => fold_left Z.max xs x
  end.

(** [((total_ticks + slot_ticks - 1) // slot_ticks) + 1], the number of
    slots of a grid (lines 50 and 91). *)
Definition slot_count_of (total_ticks slot_ticks : Z) : res Z :=
  q ← floordiv (total_ticks + slot_ticks - 1) slot_ticks;
  Ok (q + 1).

(** [sorted(l)] on integers. *)
Definition sorted (l : list Z) : list Z := merge_sort Z.le l.

(** [sep.join(l)] *)
Definition join (sep : string) (l : list string) : string := String.concat sep l.

(** The line feed character. *)
Definition NL : string := String (Ascii.ascii_of_nat 10) EmptyString.

(** [while tokens and tokens[-1] == rest: tokens.pop()] *)
Fixpoint pop_trailing (rest : string) (tokens : list string) : list string :=
  match tokens with
  | [] => []
  | t :: ts =>
      match pop_trailing rest ts with
      | [] => if decide (t = rest) then [] else [t]
      | ts' => t :: ts'
      end
  end.

(** ** MIDI messages, as mido hands them over

    Only [note_on] and [note_off] carry a note and a velocity; the other
    channel messages (control change, program change, pitch wheel, ...)
    carry a channel; meta and system messages carry no channel attribute
    at all.  Every message has a delta time. *)

Inductive Message : Set :=
| NoteOn (channel note velocity time : Z)
| NoteOff (channel note velocity time : Z)
| ChannelMessage (channel time : Z)
| MetaMessage (time : Z).

Inductive msg_type : Set := note_on | note_off | other_type.

Definition type_of (msg : Message) : msg_type :=
  match msg with
  | NoteOn _ _ _ _ => note_on
  | NoteOff _ _ _ _ => note_off
  | _ => other_type
  end.

(** [msg.channel], [None] when [hasattr(msg, 'channel')] is false. *)
Definition channel_of (msg : Message) : option Z :=
  match msg with
  | NoteOn c _ _ _ | NoteOff c _ _ _ | ChannelMessage c _ => Some c
  | MetaMessage _ => None
  end.

Definition time_of (msg : Message) : Z :=
  match msg with
  | NoteOn _ _ _ t | NoteOff _ _ _ t | ChannelMessage _ t | MetaMessage t => t
  end.

Definition Track : Set := list Message.

Record MidiFile : Set := {
  tracks : list Track;
  ticks_per_beat : Z
}.

(** ** The leaf functions *)

Fixpoint is_drum_track (track : Track) : bool :=
  match track with
  | [] => false
  | msg :: rest =>
      match type_of msg with
      | note_on | note_off =>
          if bool_decide (channel_of msg = Some 9) then true
          else is_drum_track rest
      | other_type => is_drum_track rest
      end
  end.

Definition note_names : list string :=
  ["C"; "C#"; "D"; "D#"; "E"; "F"; "F#"; "G"; "G#"; "A"; "A#"; "B"].

Definition midi_note_to_mida (note : Z) : string :=
  let octave := (note `div` 12) - 1 in
  let name := default "" (note_names !! Z.to_nat (note `mod` 12)) in
  name +:+ pretty octave.

Definition quantize_ticks (ticks_per_beat : Z) (eighth : bool) : Z :=
  if eighth then ticks_per_beat `div` 2 else ticks_per_beat.

Definition velocity_to_typeset (velocity : Z) : string :=
  if decide (velocity >= 110) then "^|"
  else if decide (velocity <= 40) then "v|"
  else "*|".

(** ** The percussion encoder, [extract_drum_audicles] *)

(** [drum_events]: note -> list of (abs_time, velocity), in the order the
    keys were first inserted. *)
Definition drum_dict : Set := list (Z * list (Z * Z)).

(** [drum_events[note].append(ev)] on a [defaultdict(list)] *)
Fixpoint dd_append (note : Z) (ev : Z * Z) (d : drum_dict) : drum_dict :=
  match d with
  | [] => [(note, [ev])]
  | (k, evs) :: rest =>
      if decide (k = note) then (k, evs ++ [ev]) :: rest
      else (k, evs) :: dd_append note ev rest
  end.

(** [drum_events[note]] *)
Fixpoint dd_get (note : Z) (d : drum_dict) : list (Z * Z) :=
  match d with
  | [] => []
  | (k, evs) :: rest => if decide (k = note) then evs else dd_get note rest
  end.

(** The inner loop over one track's messages (lines 37-40). *)
Fixpoint collect_track (abs_time : Z) (track : Track) (drum_events : drum_dict)
  : drum_dict :=
  match track with
  | [] => drum_events
  | msg :: rest =>
      let abs_time := abs_time + time_of msg in
      match msg with
      | NoteOn channel note velocity _ =>
          if decide (channel = 9 /\ velocity > 0)
          then collect_track abs_time rest (dd_append note (abs_time, velocity) drum_events)
          else collect_track abs_time rest drum_events
      | _ => collect_track abs_time rest drum_events
      end
  end.

(** The loop over all tracks (lines 34-40). *)
Definition collect_drum_events (trks : list Track) : drum_dict :=
  fold_left (fun drum_events track => collect_track 0 track drum_events) trks [].

(** Lines 46-49. *)
Definition drum_total_ticks (drum_events : drum_dict) : Z :=
  fold_left
    (fun total_ticks '(note, events) =>
       match events with
       | [] => total_ticks
       | _ => Z.max total_ticks (py_max (map fst events))
       end)
    drum_events 0.

(** Lines 55-58: the grid of one pitch. *)
Fixpoint drum_timeline (eighth_ticks : Z) (events : list (Z * Z))
    (timeline : list (list Z)) : res (list (list Z)) :=
  match events with
  | [] => Ok timeline
  | (abs_time, velocity) :: rest =>
      slot ← floordiv abs_time eighth_ticks;
      i ← py_index (Z.of_nat (length timeline)) slot;
      drum_timeline eighth_ticks rest (alter (fun vs => vs ++ [velocity]) i timeline)
  end.

(** Lines 62-69: one slot's token. *)
Definition drum_token (velocities : list Z) : string :=
  match velocities with
  | [] => "_"
  | [v] => velocity_to_typeset v
  | _ => "{" +:+ join " " (map velocity_to_typeset velocities) +:+ "}"
  end.

(** Lines 60-75: a grid rendered, [None] when the pitch is skipped. *)
Definition drum_render (timeline : list (list Z)) : option string :=
  let tokens := map drum_token timeline in
  let tokens := pop_trailing "_" tokens in
  match tokens with
  | [] => None
  | _ => Some ("(" +:+ join " " tokens +:+ ")")
  end.

(** One iteration of the loop over [sorted(drum_events)]. *)
Definition drum_audicle (drum_events : drum_dict) (slot_count eighth_ticks note : Z)
  : res (option string) :=
  let timeline := replicate (Z.to_nat slot_count) [] in
  timeline ← drum_timeline eighth_ticks (dd_get note drum_events) timeline;
  Ok (drum_render timeline).

Fixpoint drum_audicles_loop (drum_events : drum_dict) (slot_count eighth_ticks : Z)
    (notes : list Z) (audicles : list string) : res (list string) :=
  match notes with
  | [] => Ok audicles
  | note :: rest =>
      a ← drum_audicle drum_events slot_count eighth_ticks note;
      match a with
      | None => drum_audicles_loop drum_events slot_count eighth_ticks rest audicles
      | Some line =>
          drum_audicles_loop drum_events slot_count eighth_ticks rest (audicles ++ [line])
      end
  end.

(** Lines 41-76, from the collected dictionary on. *)
Definition render_drum_events (drum_events : drum_dict) (ticks_per_beat : Z)
  : res (list string) :=
  match drum_events with
  | [] => Ok []
  | _ =>
      let eighth_ticks := quantize_ticks ticks_per_beat true in
      let total_ticks := drum_total_ticks drum_events in
      slot_count ← slot_count_of total_ticks eighth_ticks;
      drum_audicles_loop drum_events slot_count eighth_ticks
        (sorted (map fst drum_events)) []
  end.

Definition extract_drum_audicles (mid : MidiFile) (ticks_per_beat : Z)
  : res (list string) :=
  render_drum_events (collect_drum_events (tracks mid)) ticks_per_beat.

(** ** The melodic encoder, [track_to_audicle] *)

Inductive evtype : Set := on | off.

(** (abs_time, note, evtype) *)
Definition event : Set := (Z * Z * evtype)%type.

(** Lines 82-87: the event list of a track, [abs_time] being the running
    sum of the delta times read so far. *)
Fixpoint track_events (abs_time : Z) (track : Track) : list event :=
  match track with
  | [] => []
  | msg :: rest =>
      let abs_time := abs_time + time_of msg in
      match msg with
      | NoteOn _ note velocity _ =>
          if decide (velocity > 0) then (abs_time, note, on) :: track_events abs_time rest
          else if decide (velocity = 0) then (abs_time, note, off) :: track_events abs_time rest
          else track_events abs_time rest
      | NoteOff _ note _ _ => (abs_time, note, off) :: track_events abs_time rest
      | _ => track_events abs_time rest
      end
  end.

(** Lines 100-103: [active_notes.add(note)] or [active_notes.discard(note)]. *)
Definition apply_event (active_notes : gset Z) (note : Z) (ev : evtype) : gset Z :=
  match ev with
  | on => {[note]} ∪ active_notes
  | off => active_notes ∖ {[note]}
  end.

(** Lines 98-104: the inner [while]; the events still to be read stand for
    [events[event_idx:]]. *)
Fixpoint consume (slot_end : Z) (events : list event) (active_notes : gset Z)
  : list event * gset Z :=
  match events with
  | [] => ([], active_notes)
  | (tick, note, ev) :: rest =>
      if decide (tick < slot_end)
      then consume slot_end rest (apply_event active_notes note ev)
      else (events, active_notes)
  end.

(** Lines 95-105: the loop over [range(slot_count)]. *)
Fixpoint sweep (sixteenth_ticks : Z) (slots : list Z) (events : list event)
    (active_notes : gset Z) : list (gset Z) :=
  match slots with
  | [] => []
  | slot :: slots' =>
      let slot_start := slot * sixteenth_ticks in
      let slot_end := slot_start + sixteenth_ticks in
      let '(events', active_notes') := consume slot_end events active_notes in
      active_notes' :: sweep sixteenth_ticks slots' events' active_notes'
  end.

(** Lines 109-117: the token of one slot, given the previous slot's set. *)
Definition mida_token (prev_notes notes : gset Z) : string :=
  if decide (notes = ∅) then "."
  else
    let notes_sorted := sorted (elements notes) in
    let token := join "~" (map midi_note_to_mida notes_sorted) in
    if decide (notes = prev_notes) then "-" else token.

(** Lines 106-118. *)
Fixpoint mida_tokens (prev_notes : gset Z) (timeline : list (gset Z)) : list string :=
  match timeline with
  | [] => []
  | notes :: rest => mida_token prev_notes notes :: mida_tokens notes rest
  end.

(** Lines 106-123: a melodic grid rendered. *)
Definition melodic_render (timeline : list (gset Z)) : option string :=
  let tokens := pop_trailing "." (mida_tokens ∅ timeline) in
  match tokens with
  | [] => None
  | _ => Some ("*" +:+ join " " tokens +:+ "*")
  end.

(** Lines 90-105: the grid of held-pitch sets. *)
Definition track_timeline (events : list event) (sixteenth_ticks : Z)
  : res (list (gset Z)) :=
  let total_ticks := py_max (map (fun e => e.1.1) events) in
  slot_count ← slot_count_of total_ticks sixteenth_ticks;
  Ok (sweep sixteenth_ticks (seqZ 0 slot_count) events ∅).

Definition track_to_audicle (track : Track) (ticks_per_beat : Z) : res (option string) :=
  let sixteenth_ticks := ticks_per_beat `div` 4 in
  let events := track_events 0 track in
  match events with
  | [] => Ok None
  | _ =>
      timeline ← track_timeline events sixteenth_ticks;
      Ok (melodic_render timeline)
  end.

(** ** The document, [main] *)

(** Lines 145-154: the melodic audicles of the tracks that are not drum
    tracks; [None] and the empty string are falsy. *)
Fixpoint melodic_audicles (trks : list Track) (ticks_per_beat : Z)
    (audicles : list string) : res (list string) :=
  match trks with
  | [] => Ok audicles
  | track :: rest =>
      if is_drum_track track then melodic_audicles rest ticks_per_beat audicles
      else
        audicle ← track_to_audicle track ticks_per_beat;
        match audicle with
        | Some (String c s) =>
            melodic_audicles rest ticks_per_beat (audicles ++ [String c s])
        | _ => melodic_audicles rest ticks_per_beat audicles
        end
  end.

(** [l[0]] *)
Definition py_first (l : list string) : res string :=
  match l with
  | x :: _ => Ok x
  | [] => Raise IndexError
  end.

(** Lines 156-167: the lines of the document. *)
Definition assemble (drum_audicles audicles : list string) : res (list string) :=
  let output := [] in
  let output := match drum_audicles with [] => output | _ => output ++ drum_audicles end in
  match audicles, drum_audicles with
  | [], [] => Ok (output ++ ["// No tracks found."])
  | _, _ =>
      if decide (length audicles + length drum_audicles = 1)%nat then
        line ← match audicles with
               | _ :: _ => py_first audicles
               | [] => py_first drum_audicles
               end;
        Ok (output ++ [line])
      else
        let output := py_insert 0 "`~#" output in
        let output := py_insert 1 "‘" output in
        let output := output ++ audicles in
        Ok (output ++ ["‘"])
  end.

(** Lines 142-169: the text put on the clipboard. *)
Definition main (mid : MidiFile) : res string :=
  let ticks_per_beat := ticks_per_beat mid in
  drum_audicles ← extract_drum_audicles mid ticks_per_beat;
  audicles ← melodic_audicles (tracks mid) ticks_per_beat [];
  output ← assemble drum_audicles audicles;
  Ok (join NL output).

(** ** Notions used to state the properties *)

(** One percussion attack of pitch 38 and velocity 80, no other track,
    480 ticks per beat. *)
Definition single_snare_hit : MidiFile :=
  {| tracks := [[NoteOn 9 38 80 0]]; ticks_per_beat := 480 |}.

(** The line a track contributes to the melodic audicles, if any. *)
Definition melodic_line (ticks_per_beat : Z) (track : Track) : option string :=
  if is_drum_track track then None
  else match track_to_audicle track ticks_per_beat with
       | Ok (Some (String c s)) => Some (String c s)
       | _ => None
       end.

(** [lines] are the audicles of the pitches of [drum_events], taken in
    strictly ascending pitch order, the pitches without an audicle left
    out. *)
Definition in_ascending_pitch_order (drum_events : drum_dict) (ticks_per_beat : Z)
    (lines : list string) : Prop :=
  exists (notes : list Z) (per_note : list (option string)),
    StronglySorted Z.lt notes /\
    (forall note, note ∈ notes <-> note ∈ map fst drum_events) /\
    Forall2
      (fun note a =>
         exists slot_count,
           slot_count_of (drum_total_ticks drum_events)
             (quantize_ticks ticks_per_beat true) = Ok slot_count /\
           drum_audicle drum_events slot_count
             (quantize_ticks ticks_per_beat true) note = Ok a)
      notes per_note /\
    lines = omap id per_note.

(** A percussion track hitting pitch 38 then pitch 36, and two melodic
    tracks. *)
Definition envelope_example : MidiFile :=
  {| tracks := [ [NoteOn 9 38 80 0; NoteOn 9 36 120 0];
                 [NoteOn 0 60 64 0; NoteOff 0 60 0 480];
                 [NoteOn 1 69 64 0; NoteOff 1 69 0 120] ];
     ticks_per_beat := 480 |}.

(** The set a slot is compared with: the set of the slot before it, the
    empty set for the first slot. *)
Definition previous_slot (timeline : list (gset Z)) (i : nat) : gset Z :=
  match i with
  | O => ∅
  | S j => default ∅ (timeline !! j)
  end.

(** [names] lists the pitches of [notes] in strictly ascending order. *)
Definition ascending_pitches (notes : gset Z) (names : list Z) : Prop :=
  StronglySorted Z.lt names /\ forall n, n ∈ names <-> n ∈ notes.

(** Every delta time is non-negative, as the times read from a MIDI file
    are. *)
Definition nonneg_times (trks : list Track) : Prop :=
  Forall (Forall (fun msg => 0 <= time_of msg)) trks.

(** Every recorded hit of the dictionary has its time in [lo, hi]. *)
Definition hits_between (lo hi : Z) (d : drum_dict) : Prop :=
  forall note evs ev, (note, evs) ∈ d -> ev ∈ evs -> lo <= ev.1 <= hi.

(** [msg] with its delta time set to [t]. *)
Definition with_time (msg : Message) (t : Z) : Message :=
  match msg with
  | NoteOn c n v _ => NoteOn c n v t
  | NoteOff c n v _ => NoteOff c n v t
  | ChannelMessage c _ => ChannelMessage c t
  | MetaMessage _ => MetaMessage t
  end.

(** [msg] releases [note]: a note_off, or a note_on of velocity 0. *)
Definition is_release (msg : Message) (note : Z) : Prop :=
  match msg with
  | NoteOff _ n _ _ => n = note
  | NoteOn _ n v _ => n = note /\ v = 0
  | _ => False
  end.

(** [msg] attacks [note]: a note_on of positive velocity. *)
Definition is_attack (msg : Message) (note : Z) : Prop :=
  match msg with
  | NoteOn _ n v _ => n = note /\ v > 0
  | _ => False
  end.

(** Two tracks that differ only in the order of a release and an attack
    falling on the same tick: the first of the two messages comes [d] ticks
    after [pre], the second 0 ticks after the first. *)
Definition release_first (pre : Track) (rel att : Message) (d : Z) (post : Track) : Track :=
  pre ++ [with_time rel d; with_time att 0] ++ post.

Definition attack_first (pre : Track) (rel att : Message) (d : Z) (post : Track) : Track :=
  pre ++ [with_time att d; with_time rel 0] ++ post.

(** The grid of held-pitch sets of a track (lines 79-105). *)
Definition track_grid (track : Track) (ticks_per_beat : Z) : res (list (gset Z)) :=
  track_timeline (track_events 0 track) (ticks_per_beat `div` 4).

(** [msg] is a percussion hit: a note_on on channel 9 of positive
    velocity (the test of line 39). *)
Definition is_hit (msg : Message) : Prop :=
  match msg with
  | NoteOn channel _ velocity _ => channel = 9 /\ velocity > 0
  | _ => False
  end.

(** The percussion hits of a track in message order, each with its pitch:
    (note, (abs_time, velocity)). *)
Fixpoint track_hits (abs_time : Z) (track : Track) : list (Z * (Z * Z)) :=
  match track with
  | [] => []
  | msg :: rest =>
      let abs_time := abs_time + time_of msg in
      match msg with
      | NoteOn channel note velocity _ =>
          if decide (channel = 9 /\ velocity > 0)
          then (note, (abs_time, velocity)) :: track_hits abs_time rest
          else track_hits abs_time rest
      | _ => track_hits abs_time rest
      end
  end.

(** The hits of pitch [note] among [hits], in order. *)
Definition hits_of (note : Z) (hits : list (Z * (Z * Z))) : list (Z * Z) :=
  (filter (fun h => h.1 = note) hits).*2.

(** The pitches held once all of [events] are applied in order to
    [active_notes]. *)
Definition held_after (events : list event) (active_notes : gset Z) : gset Z :=
  fold_left (fun held e => apply_event held e.1.2 e.2) events active_notes.

(** The hits of a pitch that fall into slot [i] of its grid, in recorded
    order. *)
Definition hits_in_slot (eighth_ticks : Z) (events : list (Z * Z)) (i : nat) : list Z :=
  (filter (fun ev => Z.to_nat (ev.1 `div` eighth_ticks) = i) events).*2.

(** A track with every delta time multiplied by [k]. *)
Definition scale_track (k : Z) (track : Track) : Track :=
  map (fun msg => with_time msg (k * time_of msg)) track.

Definition scale_event (k : Z) (e : event) : event := (k * e.1.1, e.1.2, e.2).

(** A dictionary of hits with every absolute time multiplied by [k]. *)
Definition scale_dict (k : Z) (d : drum_dict) : drum_dict :=
  map (fun entry => (entry.1, map (fun ev => (k * ev.1, ev.2)) entry.2)) d.

(** * Properties *)

(** ** Basic facts about the error monad *)

Lemma bind_Ok {A B : Type} (f : A -> res B) (m : res A) (b : B) :
  m ≫= f = Ok b <-> exists a, m = Ok a /\ f a = Ok b.
Proof.
  destruct m as [a|e]; simpl; split.
  - intros H. exists a. auto.
  - intros (a' & [= <-] & H). exact H.
  - discriminate.
  - intros (a' & [=] & _).
Qed.

Lemma floordiv_Ok (a b : Z) : b <> 0 -> floordiv a b = Ok (a `div` b).
Proof. intros Hb. unfold floordiv. destruct (decide (b = 0)); [contradiction | reflexivity]. Qed.

Lemma slot_count_of_Ok (total_ticks slot_ticks : Z) :
  slot_ticks <> 0 ->
  slot_count_of total_ticks slot_ticks
  = Ok ((total_ticks + slot_ticks - 1) `div` slot_ticks + 1).
Proof. intros Hs. unfold slot_count_of. rewrite floordiv_Ok by assumption. reflexivity. Qed.

(** ** Velocity classes *)

(** C9: [velocity_to_typeset] gives the accented token for every velocity
    of 110 and more, the soft token for every velocity of 40 and less, the
    normal token in between; 109 and 41 are normal, 110 is accented, 40 is
    soft. *)
Theorem velocity_to_typeset_thresholds (velocity : Z) :
  (velocity >= 110 -> velocity_to_typeset velocity = "^|") /\
  (velocity <= 40 -> velocity_to_typeset velocity = "v|") /\
  (40 < velocity < 110 -> velocity_to_typeset velocity = "*|") /\
  velocity_to_typeset 109 = "*|" /\
  velocity_to_typeset 41 = "*|" /\
  velocity_to_typeset 110 = "^|" /\
  velocity_to_typeset 40 = "v|".
Proof.
  unfold velocity_to_typeset.
  repeat split; try reflexivity; intros Hv; repeat case_decide; first [reflexivity | lia].
Qed.

Lemma velocity_to_typeset_thresholds_witness :
  velocity_to_typeset 127 = "^|" /\ velocity_to_typeset 0 = "v|" /\
  velocity_to_typeset 80 = "*|".
Proof.
  split; [| split].
  - refine (proj1 (velocity_to_typeset_thresholds 127) _). lia.
  - refine (proj1 (proj2 (velocity_to_typeset_thresholds 0)) _). lia.
  - refine (proj1 (proj2 (proj2 (velocity_to_typeset_thresholds 80))) _). lia.
Defined.

(** ** Track classification *)

Lemma is_drum_track_iff (track : Track) :
  is_drum_track track = true <->
  exists msg, msg ∈ track /\
    (type_of msg = note_on \/ type_of msg = note_off) /\ channel_of msg = Some 9.
Proof.
  induction track as [|m rest IH].
  - simpl. split; [discriminate |]. intros (msg & Hin & _). inversion Hin.
  - assert (Hstep : is_drum_track (m :: rest) = true <->
        ((type_of m = note_on \/ type_of m = note_off) /\ channel_of m = Some 9)
        \/ is_drum_track rest = true).
    { simpl. destruct (type_of m); try case_bool_decide; intuition congruence. }
    rewrite Hstep, IH. split.
    + intros [[Hty Hc] | (msg & Hin & H)].
      * exists m. split; [apply list_elem_of_here | auto].
      * exists msg. split; [apply list_elem_of_further; exact Hin | exact H].
    + intros (msg & Hin & Hty & Hc).
      apply elem_of_cons in Hin as [-> | Hin]; [left; auto | right; exists msg; auto].
Qed.

(** C2, counterexample: a track whose only message is a control change on
    channel 9 holds a message with the percussion channel, and
    [is_drum_track] answers false. *)
Lemma is_drum_track_ignores_non_note_messages :
  (exists msg, msg ∈ [ChannelMessage 9 0] /\ channel_of msg = Some 9) /\
  is_drum_track [ChannelMessage 9 0] = false.
Proof.
  split; [| reflexivity].
  exists (ChannelMessage 9 0). split; [apply list_elem_of_here | reflexivity].
Qed.

(** C2, amended: [is_drum_track] answers true exactly when some [note_on]
    or [note_off] message of the track is on channel 9; messages of the
    other types are not looked at. *)
Theorem is_drum_track_note_message_on_channel_9 (track : Track) :
  (is_drum_track track = true <->
   exists msg, msg ∈ track /\
     (type_of msg = note_on \/ type_of msg = note_off) /\ channel_of msg = Some 9) /\
  (forall msg, type_of msg = other_type ->
     is_drum_track (msg :: track) = is_drum_track track).
Proof.
  split; [apply is_drum_track_iff |].
  intros msg Hty. simpl. rewrite Hty. reflexivity.
Qed.

Lemma is_drum_track_note_message_on_channel_9_witness :
  is_drum_track [ChannelMessage 9 0; NoteOn 0 60 64 0] = is_drum_track [NoteOn 0 60 64 0].
Proof.
  apply (proj2 (is_drum_track_note_message_on_channel_9 [NoteOn 0 60 64 0])
           (ChannelMessage 9 0)).
  reflexivity.
Defined.

(** ** [sorted] *)

Lemma sorted_Sorted (l : list Z) : Sorted Z.le (sorted l).
Proof. apply (Sorted_merge_sort Z.le). Qed.

Lemma sorted_Permutation (l : list Z) : sorted l ≡ₚ l.
Proof. apply (merge_sort_Permutation Z.le). Qed.

Lemma sorted_unique (l l' : list Z) : Sorted Z.le l' -> l' ≡ₚ l -> sorted l = l'.
Proof.
  intros Hs Hp. apply (Sorted_unique Z.le).
  - apply sorted_Sorted.
  - exact Hs.
  - rewrite sorted_Permutation. symmetry. exact Hp.
Qed.

Lemma sorted_of_Permutation (l1 l2 : list Z) : l1 ≡ₚ l2 -> sorted l1 = sorted l2.
Proof.
  intros Hp. apply sorted_unique; [apply sorted_Sorted |].
  rewrite sorted_Permutation. symmetry. exact Hp.
Qed.

Lemma StronglySorted_le_lt (l : list Z) :
  StronglySorted Z.le l -> NoDup l -> StronglySorted Z.lt l.
Proof.
  induction 1 as [|x l Hl IH Hx]; intros Hnd; constructor.
  - apply IH. apply NoDup_cons in Hnd. tauto.
  - apply NoDup_cons in Hnd as [Hnotin _].
    rewrite Forall_forall in Hx |- *. intros y Hy.
    specialize (Hx y Hy). assert (x <> y) by (intros ->; contradiction). lia.
Qed.

Lemma sorted_strict (l : list Z) : NoDup l -> StronglySorted Z.lt (sorted l).
Proof.
  intros Hnd. apply StronglySorted_le_lt.
  - apply (Sorted_StronglySorted Z.le), sorted_Sorted.
  - rewrite sorted_Permutation. exact Hnd.
Qed.

(** ** The dictionary of percussion hits *)

Lemma dd_append_keys (note : Z) (ev : Z * Z) (d : drum_dict) :
  map fst (dd_append note ev d)
  = map fst d ++ (if decide (note ∈ map fst d) then [] else [note]).
Proof.
  induction d as [|[k evs] rest IH]; cbn [dd_append map fst app].
  - destruct (decide (note ∈ [])) as [H|H]; [inversion H | reflexivity].
  - destruct (decide (k = note)) as [-> | Hne]; cbn [map fst app].
    + rewrite decide_True by apply list_elem_of_here. rewrite app_nil_r. reflexivity.
    + rewrite IH. f_equal.
      destruct (decide (note ∈ map fst rest)) as [Hin | Hnin].
      * rewrite decide_True by (apply list_elem_of_further; exact Hin). reflexivity.
      * rewrite decide_False; [reflexivity |].
        intros [Heq | Hin]%elem_of_cons; [congruence | contradiction].
Qed.

Lemma dd_append_NoDup (note : Z) (ev : Z * Z) (d : drum_dict) :
  NoDup (map fst d) -> NoDup (map fst (dd_append note ev d)).
Proof.
  intros Hnd. rewrite dd_append_keys. case_decide as Hin.
  - rewrite app_nil_r. exact Hnd.
  - apply NoDup_app. split; [exact Hnd |]. split; [| apply NoDup_singleton].
    intros x Hx Hx'. apply list_elem_of_singleton in Hx'. subst x. contradiction.
Qed.

Lemma collect_track_NoDup (track : Track) (abs_time : Z) (d : drum_dict) :
  NoDup (map fst d) -> NoDup (map fst (collect_track abs_time track d)).
Proof.
  revert abs_time d. induction track as [|msg rest IH]; intros abs_time d Hnd; simpl.
  - exact Hnd.
  - destruct msg; try (apply IH; exact Hnd).
    case_decide; apply IH; [apply dd_append_NoDup |]; exact Hnd.
Qed.

Lemma collect_drum_events_NoDup (trks : list Track) :
  NoDup (map fst (collect_drum_events trks)).
Proof.
  unfold collect_drum_events.
  assert (H : forall d, NoDup (map fst d) ->
            NoDup (map fst (fold_left
              (fun drum_events track => collect_track 0 track drum_events) trks d))).
  { induction trks as [|t rest IH]; intros d Hnd; simpl; [exact Hnd |].
    apply IH, collect_track_NoDup, Hnd. }
  apply H. constructor.
Qed.

(** ** The loops that gather the audicles *)

Lemma drum_audicles_loop_Ok (d : drum_dict) (slot_count eighth_ticks : Z)
    (notes : list Z) (acc lines : list string) :
  drum_audicles_loop d slot_count eighth_ticks notes acc = Ok lines ->
  exists per_note,
    Forall2 (fun note a => drum_audicle d slot_count eighth_ticks note = Ok a)
      notes per_note /\
    lines = acc ++ omap id per_note.
Proof.
  revert acc. induction notes as [|note rest IH]; intros acc H; simpl in H.
  - injection H as <-. exists []. split; [constructor | simpl; rewrite app_nil_r; reflexivity].
  - apply bind_Ok in H as (a & Ha & H).
    destruct a as [line|]; apply IH in H as (per & Hper & ->).
    + exists (Some line :: per). split; [constructor; assumption |].
      simpl. rewrite <- app_assoc. reflexivity.
    + exists (None :: per). split; [constructor; assumption | reflexivity].
Qed.

Lemma melodic_audicles_Ok (trks : list Track) (ticks_per_beat : Z)
    (acc lines : list string) :
  melodic_audicles trks ticks_per_beat acc = Ok lines ->
  lines = acc ++ omap (melodic_line ticks_per_beat) trks.
Proof.
  revert acc. induction trks as [|track rest IH]; intros acc H; simpl in H.
  - injection H as <-. simpl. rewrite app_nil_r. reflexivity.
  - simpl. unfold melodic_line at 1.
    destruct (is_drum_track track); [apply IH; exact H |].
    apply bind_Ok in H as (a & Ha & H). rewrite Ha.
    destruct a as [[|c s]|]; apply IH in H; subst lines; try reflexivity.
    rewrite <- app_assoc. reflexivity.
Qed.

Lemma extract_drum_audicles_sorted (mid : MidiFile) (ticks_per_beat : Z)
    (lines : list string) :
  extract_drum_audicles mid ticks_per_beat = Ok lines ->
  in_ascending_pitch_order (collect_drum_events (tracks mid)) ticks_per_beat lines.
Proof.
  unfold extract_drum_audicles, render_drum_events, in_ascending_pitch_order.
  pose proof (collect_drum_events_NoDup (tracks mid)) as Hnd.
  destruct (collect_drum_events (tracks mid)) as [|e d] eqn:Ed.
  - intros [= <-]. exists [], []. repeat split; try constructor; simpl; auto.
  - intros H. apply bind_Ok in H as (slot_count & Hsc & H).
    apply drum_audicles_loop_Ok in H as (per & Hper & ->).
    exists (sorted (map fst (e :: d))), per. split; [apply sorted_strict; exact Hnd |].
    split; [intros note; rewrite sorted_Permutation; reflexivity |].
    split; [| reflexivity].
    eapply Forall2_impl; [exact Hper |]. intros note a Ha. exists slot_count. auto.
Qed.

(** ** The assembly of the document *)

Lemma assemble_envelope (drum_audicles audicles : list string) :
  (2 <= length drum_audicles + length audicles)%nat ->
  assemble drum_audicles audicles
  = Ok (["`~#"; "‘"] ++ drum_audicles ++ audicles ++ ["‘"]).
Proof.
  intros Hlen. unfold assemble.
  destruct audicles as [|a audicles], drum_audicles as [|d ds]; simpl in *; try lia.
  all: case_decide; [simpl in *; lia |].
  all: unfold py_insert; simpl; rewrite ?app_nil_r, <- ?app_assoc; reflexivity.
Qed.

(** C1: when the drum encoder leaves one audicle and the melodic encoder
    none, the document is that drum line twice, on two lines joined by a
    line feed; for one percussion attack of pitch 38 and velocity 80 in
    the only track, at 480 ticks per beat, the two lines are the one-slot
    normal-hit audicle (an opening parenthesis, the normal hit token, a
    closing parenthesis). *)
Theorem single_drum_audicle_is_duplicated :
  (forall (mid : MidiFile) (line : string),
     extract_drum_audicles mid (ticks_per_beat mid) = Ok [line] ->
     melodic_audicles (tracks mid) (ticks_per_beat mid) [] = Ok [] ->
     main mid = Ok (line +:+ NL +:+ line)) /\
  main single_snare_hit = Ok ("(*|)" +:+ NL +:+ "(*|)").
Proof.
  split; [| reflexivity].
  intros mid line Hd Hm. unfold main. rewrite Hd. simpl. rewrite Hm. simpl.
  reflexivity.
Qed.

Lemma single_drum_audicle_is_duplicated_witness :
  extract_drum_audicles single_snare_hit (ticks_per_beat single_snare_hit) = Ok ["(*|)"] /\
  melodic_audicles (tracks single_snare_hit) (ticks_per_beat single_snare_hit) [] = Ok [] /\
  main single_snare_hit = Ok ("(*|)" +:+ NL +:+ "(*|)").
Proof.
  split; [reflexivity |]. split; [reflexivity |].
  apply (proj1 single_drum_audicle_is_duplicated single_snare_hit "(*|)"); reflexivity.
Defined.

(** C5: when the two encoders leave at least two audicles in total, the
    document is, joined by line feeds and in this order: the header line,
    the opening quote line, the drum audicles (those of the percussion
    pitches in strictly ascending pitch order), the melodic audicles (those
    of the tracks that are not drum tracks, in track order), the closing
    quote line. *)
Theorem document_envelope_order (mid : MidiFile) (drum_audicles audicles : list string) :
  extract_drum_audicles mid (ticks_per_beat mid) = Ok drum_audicles ->
  melodic_audicles (tracks mid) (ticks_per_beat mid) [] = Ok audicles ->
  (2 <= length drum_audicles + length audicles)%nat ->
  main mid = Ok (join NL (["`~#"; "‘"] ++ drum_audicles ++ audicles ++ ["‘"])) /\
  in_ascending_pitch_order (collect_drum_events (tracks mid)) (ticks_per_beat mid)
    drum_audicles /\
  audicles = omap (melodic_line (ticks_per_beat mid)) (tracks mid).
Proof.
  intros Hd Hm Hlen. split; [| split].
  - unfold main. rewrite Hd. simpl. rewrite Hm. simpl.
    rewrite assemble_envelope by exact Hlen. reflexivity.
  - apply extract_drum_audicles_sorted. exact Hd.
  - apply melodic_audicles_Ok in Hm. exact Hm.
Qed.

Lemma document_envelope_order_witness :
  extract_drum_audicles envelope_example (ticks_per_beat envelope_example)
  = Ok ["(^|)"; "(*|)"] /\
  melodic_audicles (tracks envelope_example) (ticks_per_beat envelope_example) []
  = Ok ["*C4 - - -*"; "*A4*"] /\
  main envelope_example
  = Ok (join NL ["`~#"; "‘"; "(^|)"; "(*|)"; "*C4 - - -*"; "*A4*"; "‘"]).
Proof.
  split; [reflexivity |]. split; [reflexivity |].
  apply (document_envelope_order envelope_example ["(^|)"; "(*|)"] ["*C4 - - -*"; "*A4*"]).
  - reflexivity.
  - reflexivity.
  - simpl. lia.
Defined.

(** ** Rendering of a melodic grid *)

Lemma mida_tokens_lookup (timeline : list (gset Z)) (prev0 : gset Z) (i : nat)
    (notes : gset Z) :
  timeline !! i = Some notes ->
  mida_tokens prev0 timeline !! i
  = Some (mida_token (match i with O => prev0 | S j => default ∅ (timeline !! j) end) notes).
Proof.
  revert prev0 i. induction timeline as [|n0 rest IH]; intros prev0 i Hi.
  - destruct i; discriminate Hi.
  - destruct i as [|j]; simpl in *.
    + injection Hi as ->. reflexivity.
    + rewrite (IH n0 j Hi). destruct j; reflexivity.
Qed.

Lemma ascending_pitches_sorted (notes : gset Z) (names : list Z) :
  ascending_pitches notes names -> names = sorted (elements notes).
Proof.
  intros [Hs Hin]. symmetry. apply sorted_unique.
  - apply StronglySorted_Sorted. clear Hin.
    induction Hs as [|x l Hl IH Hx]; constructor; [exact IH |].
    eapply Forall_impl; [exact Hx |]. intros y Hy. simpl in Hy. lia.
  - apply NoDup_Permutation.
    + clear Hin. induction Hs as [|x l Hl IH Hx]; constructor; [| exact IH].
      intros Hx'. rewrite Forall_forall in Hx. specialize (Hx x Hx'). lia.
    + apply NoDup_elements.
    + intros n. rewrite Hin, elem_of_elements. reflexivity.
Qed.

Lemma sorted_elements_ascending (notes : gset Z) :
  ascending_pitches notes (sorted (elements notes)).
Proof.
  split.
  - apply sorted_strict, NoDup_elements.
  - intros n. rewrite sorted_Permutation, elem_of_elements. reflexivity.
Qed.

(** C6: one attack of pitch 60 at tick 0 released at tick 480, at 480
    ticks per beat, is rendered as C4 followed by three sustain marks
    between the two asterisks.  In any grid, the token of a slot is the
    dot when its set is empty, the sustain mark when its set is not empty
    and equals the set of the slot before it, and otherwise the names of
    its pitches in ascending pitch order joined by the tilde. *)
Theorem sustain_compression :
  (forall channel velocity channel' velocity' : Z,
     velocity > 0 ->
     track_to_audicle
       [NoteOn channel 60 velocity 0; NoteOff channel' 60 velocity' 480] 480
     = Ok (Some "*C4 - - -*") /\
     track_to_audicle
       [NoteOn channel 60 velocity 0; NoteOn channel' 60 0 480] 480
     = Ok (Some "*C4 - - -*")) /\
  (forall (timeline : list (gset Z)) (i : nat) (notes : gset Z),
     timeline !! i = Some notes ->
     exists token,
       mida_tokens ∅ timeline !! i = Some token /\
       (notes = ∅ -> token = ".") /\
       (notes <> ∅ -> notes = previous_slot timeline i -> token = "-") /\
       (notes <> ∅ -> notes <> previous_slot timeline i ->
        (exists names, ascending_pitches notes names) /\
        (forall names, ascending_pitches notes names ->
           token = join "~" (map midi_note_to_mida names)))).
Proof.
  split.
  - intros channel velocity channel' velocity' Hv.
    unfold track_to_audicle. cbn [track_events time_of].
    destruct (decide (velocity > 0)) as [_ | Hn]; [| contradiction].
    split; vm_compute; reflexivity.
  - intros timeline i notes Hi.
    eexists. split; [apply mida_tokens_lookup; exact Hi |].
    fold (previous_slot timeline i). unfold mida_token.
    split; [| split].
    + intros ->. rewrite decide_True by reflexivity. reflexivity.
    + intros Hne Heq. rewrite decide_False by exact Hne.
      rewrite decide_True by exact Heq. reflexivity.
    + intros Hne Hneq. rewrite decide_False by exact Hne.
      rewrite decide_False by exact Hneq.
      split; [exists (sorted (elements notes)); apply sorted_elements_ascending |].
      intros names Hnames. rewrite (ascending_pitches_sorted notes names Hnames).
      reflexivity.
Qed.

Lemma sustain_compression_witness :
  track_to_audicle [NoteOn 0 60 64 0; NoteOff 0 60 0 480] 480 = Ok (Some "*C4 - - -*") /\
  exists token,
    mida_tokens ∅ [{[60]}; {[60]}; ∅] !! 1%nat = Some token /\ token = "-".
Proof.
  split.
  - refine (proj1 (proj1 sustain_compression 0 64 0 0 _)). lia.
  - destruct (proj2 sustain_compression [{[60]}; {[60]}; ∅] 1%nat {[60]} eq_refl)
      as (token & Htok & _ & Hsustain & _).
    exists token. split; [exact Htok |].
    apply Hsustain; [| reflexivity].
    intros H. apply (f_equal elements) in H. vm_compute in H. discriminate H.
Defined.

(** ** Trimming and trailing silent slots *)

Lemma pop_trailing_replicate (rest : string) (k : nat) :
  pop_trailing rest (replicate k rest) = [].
Proof.
  induction k as [|k IH]; simpl; [reflexivity |].
  rewrite IH. rewrite decide_True by reflexivity. reflexivity.
Qed.

Lemma pop_trailing_app_replicate (rest : string) (tokens : list string) (k : nat) :
  pop_trailing rest (tokens ++ replicate k rest) = pop_trailing rest tokens.
Proof.
  induction tokens as [|t ts IH]; simpl.
  - apply pop_trailing_replicate.
  - rewrite IH. reflexivity.
Qed.

(** What the trimming loop leaves: the tokens without their longest run of
    trailing [rest] tokens. *)
Lemma pop_trailing_spec (rest : string) (tokens : list string) :
  exists k : nat,
    tokens = pop_trailing rest tokens ++ replicate k rest /\
    last (pop_trailing rest tokens) <> Some rest.
Proof.
  induction tokens as [|t ts (k & Heq & Hlast)]; simpl.
  - exists 0%nat. split; [reflexivity | discriminate].
  - destruct (pop_trailing rest ts) as [|t' ts'] eqn:E.
    + simpl in Heq. destruct (decide (t = rest)) as [-> | Hne].
      * exists (S k). split; [simpl; f_equal; exact Heq | discriminate].
      * exists k. split; [simpl; f_equal; exact Heq |]. simpl. congruence.
    + exists k. split; [simpl; f_equal; exact Heq |].
      rewrite last_cons. destruct (last (t' :: ts')) eqn:El; [exact Hlast |].
      apply last_None in El. discriminate El.
Qed.

Lemma mida_tokens_silent (prev : gset Z) (k : nat) :
  mida_tokens prev (replicate k ∅) = replicate k ".".
Proof.
  revert prev. induction k as [|k IH]; intros prev; simpl; [reflexivity |].
  rewrite IH. unfold mida_token. rewrite decide_True by reflexivity. reflexivity.
Qed.

Lemma mida_tokens_app (prev : gset Z) (timeline timeline' : list (gset Z)) :
  mida_tokens prev (timeline ++ timeline')
  = mida_tokens prev timeline ++ mida_tokens (default prev (last timeline)) timeline'.
Proof.
  revert prev. induction timeline as [|notes rest IH]; intros prev; simpl; [reflexivity |].
  rewrite IH. do 2 f_equal. rewrite last_cons. destruct (last rest); reflexivity.
Qed.

Lemma drum_tokens_silent (k : nat) :
  map drum_token (replicate k []) = replicate k "_".
Proof. induction k as [|k IH]; simpl; [reflexivity | rewrite IH; reflexivity]. Qed.

Lemma sweep_no_events (sixteenth_ticks : Z) (slots : list Z) (active_notes : gset Z) :
  sweep sixteenth_ticks slots [] active_notes = replicate (length slots) active_notes.
Proof.
  induction slots as [|slot slots IH]; simpl; [reflexivity |].
  rewrite IH. reflexivity.
Qed.

Lemma pop_trailing_id (rest : string) (tokens : list string) :
  last tokens <> Some rest -> pop_trailing rest tokens = tokens.
Proof.
  induction tokens as [|t [|t' ts] IH]; intros Hlast; [reflexivity | |].
  - simpl. rewrite decide_False; [reflexivity |]. intros ->. apply Hlast. reflexivity.
  - rewrite last_cons_cons in Hlast. specialize (IH Hlast).
    change (pop_trailing rest (t :: t' :: ts))
      with (match pop_trailing rest (t' :: ts) with
            | [] => if decide (t = rest) then [] else [t]
            | ts' => t :: ts'
            end).
    rewrite IH. reflexivity.
Qed.

Lemma mida_tokens_held (notes : gset Z) (k : nat) :
  notes <> ∅ -> mida_tokens notes (replicate k notes) = replicate k "-".
Proof.
  intros Hne. induction k as [|k IH]; [reflexivity |].
  cbn [replicate mida_tokens]. rewrite IH. unfold mida_token.
  rewrite decide_False by exact Hne. rewrite decide_True by reflexivity. reflexivity.
Qed.

Lemma melodic_render_held (timeline : list (gset Z)) (notes : gset Z) (k : nat) :
  last timeline = Some notes -> notes <> ∅ ->
  melodic_render (timeline ++ replicate (S k) notes)
  = Some ("*" +:+ join " " (mida_tokens ∅ timeline ++ replicate (S k) "-") +:+ "*").
Proof.
  intros Hlast Hne. unfold melodic_render.
  rewrite mida_tokens_app, Hlast.
  change (default ∅ (Some notes)) with notes.
  rewrite (mida_tokens_held notes (S k) Hne).
  rewrite pop_trailing_id.
  - destruct (mida_tokens ∅ timeline ++ replicate (S k) "-") as [|t ts] eqn:E;
      [| reflexivity].
    apply app_eq_nil in E as [_ E]. discriminate E.
  - rewrite replicate_S_end, app_assoc, last_snoc. discriminate.
Qed.

(** C7, counterexample: one attack of pitch 60 one tick into the track, at
    480 ticks per beat.  Slot 0 reads the only event, so the grid is the
    grid of the same attack at tick 0 followed by one more slot that
    receives no event; that slot still holds the pitch, renders as the
    sustain mark and is not trimmed: the audicle changes. *)
Lemma trailing_slot_without_events_shows :
  track_grid [NoteOn 0 60 64 0] 480 = Ok [{[60]}] /\
  track_grid [NoteOn 0 60 64 1] 480 = Ok ([{[60]}] ++ [{[60]}]) /\
  consume (0 * 120 + 120) (track_events 0 [NoteOn 0 60 64 1]) ∅ = ([], {[60]}) /\
  track_to_audicle [NoteOn 0 60 64 0] 480 = Ok (Some "*C4*") /\
  track_to_audicle [NoteOn 0 60 64 1] 480 = Ok (Some "*C4 -*") /\
  melodic_render ([{[60]}] ++ [{[60]}]) <> melodic_render [{[60]}].
Proof.
  repeat split; try (vm_compute; reflexivity).
  vm_compute. discriminate.
Qed.

(** C7, amended: appending any number of trailing empty slots (a
    percussion slot without a hit, a melodic slot holding no pitch) to a
    grid changes the audicle of neither encoder; what is rendered is the
    token list without its trailing rest tokens (the underscore for
    percussion, the dot for melodic grids), and a grid whose token list is
    empty after the trimming gives no audicle.  A melodic slot that
    receives no event repeats the set held before it: it is such an empty
    slot only when no pitch is held; while a pitch is held it renders as
    the sustain mark and stays, so every such trailing slot adds one
    sustain mark to the audicle. *)
Theorem trailing_rests_are_trimmed_sustains_stay :
  (forall (timeline : list (list Z)) (k : nat),
     drum_render (timeline ++ replicate k []) = drum_render timeline) /\
  (forall (timeline : list (gset Z)) (k : nat),
     melodic_render (timeline ++ replicate k ∅) = melodic_render timeline) /\
  (forall timeline : list (list Z),
     exists (tokens : list string) (k : nat),
       map drum_token timeline = tokens ++ replicate k "_" /\
       last tokens <> Some "_" /\
       drum_render timeline
       = match tokens with
         | [] => None
         | _ => Some ("(" +:+ join " " tokens +:+ ")")
         end) /\
  (forall timeline : list (gset Z),
     exists (tokens : list string) (k : nat),
       mida_tokens ∅ timeline = tokens ++ replicate k "." /\
       last tokens <> Some "." /\
       melodic_render timeline
       = match tokens with
         | [] => None
         | _ => Some ("*" +:+ join " " tokens +:+ "*")
         end) /\
  (forall k : nat, drum_render (replicate k []) = None) /\
  (forall k : nat, melodic_render (replicate k ∅) = None) /\
  (forall (sixteenth_ticks : Z) (slots : list Z) (active_notes : gset Z),
     sweep sixteenth_ticks slots [] active_notes
     = replicate (length slots) active_notes) /\
  (forall (timeline : list (gset Z)) (notes : gset Z) (k : nat),
     last timeline = Some notes -> notes <> ∅ ->
     melodic_render (timeline ++ replicate (S k) notes)
     = Some ("*" +:+ join " " (mida_tokens ∅ timeline ++ replicate (S k) "-") +:+ "*")).
Proof.
  split; [| split; [| split; [| split; [| split; [| split; [| split]]]]]].
  - intros timeline k. unfold drum_render.
    rewrite map_app, drum_tokens_silent, pop_trailing_app_replicate. reflexivity.
  - intros timeline k. unfold melodic_render.
    rewrite mida_tokens_app, mida_tokens_silent, pop_trailing_app_replicate. reflexivity.
  - intros timeline.
    destruct (pop_trailing_spec "_" (map drum_token timeline)) as (k & Heq & Hlast).
    exists (pop_trailing "_" (map drum_token timeline)), k. auto.
  - intros timeline.
    destruct (pop_trailing_spec "." (mida_tokens ∅ timeline)) as (k & Heq & Hlast).
    exists (pop_trailing "." (mida_tokens ∅ timeline)), k. auto.
  - intros k. unfold drum_render.
    rewrite drum_tokens_silent, pop_trailing_replicate. reflexivity.
  - intros k. unfold melodic_render.
    rewrite mida_tokens_silent, pop_trailing_replicate. reflexivity.
  - exact sweep_no_events.
  - exact melodic_render_held.
Qed.

Lemma trailing_rests_are_trimmed_sustains_stay_witness :
  melodic_render ([{[60]}] ++ replicate 2 {[60]}) = Some "*C4 - -*".
Proof.
  rewrite (proj2 (proj2 (proj2 (proj2 (proj2 (proj2 (proj2
             trailing_rests_are_trimmed_sustains_stay))))))
             [{[60]}] {[60]} 1%nat eq_refl).
  - reflexivity.
  - intros H. apply (f_equal elements) in H. vm_compute in H. discriminate H.
Defined.

(** ** Unmatched releases *)

Lemma track_to_audicle_total (track : Track) (ticks_per_beat : Z) :
  ticks_per_beat `div` 4 <> 0 -> returns (track_to_audicle track ticks_per_beat).
Proof.
  intros Hs. unfold track_to_audicle, track_timeline.
  destruct (track_events 0 track) as [|e events]; [eexists; reflexivity |].
  rewrite slot_count_of_Ok by exact Hs. eexists. reflexivity.
Qed.

(** C10: a release (a note_off, or a note_on of velocity 0) of a pitch that
    is not held leaves the held set as it is, and raises nothing: with a
    non-zero slot width [track_to_audicle] returns on every track, whatever
    releases it holds. *)
Theorem unmatched_release_is_ignored :
  (forall (active_notes : gset Z) (note : Z),
     note ∉ active_notes -> apply_event active_notes note off = active_notes) /\
  (forall (slot_end tick note : Z) (rest : list event) (active_notes : gset Z),
     note ∉ active_notes -> tick < slot_end ->
     consume slot_end ((tick, note, off) :: rest) active_notes
     = consume slot_end rest active_notes) /\
  (forall (channel note velocity time abs_time : Z) (rest : Track),
     track_events abs_time (NoteOff channel note velocity time :: rest)
     = (abs_time + time, note, off) :: track_events (abs_time + time) rest /\
     track_events abs_time (NoteOn channel note 0 time :: rest)
     = (abs_time + time, note, off) :: track_events (abs_time + time) rest) /\
  (forall (track : Track) (ticks_per_beat : Z),
     ticks_per_beat `div` 4 <> 0 -> returns (track_to_audicle track ticks_per_beat)) /\
  track_to_audicle [NoteOff 0 60 0 0] 480 = Ok None /\
  track_to_audicle [NoteOn 0 60 0 0] 480 = Ok None /\
  track_to_audicle [NoteOff 0 62 64 0; NoteOn 0 60 64 0; NoteOff 0 60 64 480] 480
  = Ok (Some "*C4 - - -*").
Proof.
  assert (Hdiscard : forall (active_notes : gset Z) (note : Z),
            note ∉ active_notes -> apply_event active_notes note off = active_notes).
  { intros active_notes note Hnotin. unfold apply_event.
    apply set_eq. intros x. rewrite elem_of_difference, elem_of_singleton.
    split; [tauto |]. intros Hx. split; [exact Hx |]. intros ->. contradiction. }
  split; [exact Hdiscard |]. split.
  { intros slot_end tick note rest active_notes Hnotin Htick. cbn [consume].
    rewrite decide_True by exact Htick. rewrite Hdiscard by exact Hnotin. reflexivity. }
  split.
  { intros channel note velocity time abs_time rest. split; reflexivity. }
  split; [exact track_to_audicle_total |].
  repeat split; vm_compute; reflexivity.
Qed.

Lemma unmatched_release_is_ignored_witness :
  apply_event {[64]} 60 off = {[64]} /\
  returns (track_to_audicle [NoteOff 0 60 0 0; NoteOn 0 60 0 10] 480).
Proof.
  split.
  - apply (proj1 unmatched_release_is_ignored {[64]} 60). set_solver.
  - apply (proj1 (proj2 (proj2 (proj2 unmatched_release_is_ignored)))). vm_compute. discriminate.
Defined.

(** ** Slot widths and the exceptions of the encoders *)

Lemma fold_left_max_ge (xs : list Z) (x0 : Z) :
  x0 <= fold_left Z.max xs x0 /\ forall x, x ∈ xs -> x <= fold_left Z.max xs x0.
Proof.
  revert x0. induction xs as [|y ys IH]; intros x0; simpl.
  - split; [lia |]. intros x Hx. inversion Hx.
  - destruct (IH (Z.max x0 y)) as [H0 Hin]. split; [lia |].
    intros x [-> | Hx]%elem_of_cons; [lia | apply Hin, Hx].
Qed.

Lemma py_max_ge (l : list Z) (x : Z) : x ∈ l -> x <= py_max l.
Proof.
  destruct l as [|x0 xs]; intros Hx; [inversion Hx |]. simpl.
  destruct (fold_left_max_ge xs x0) as [H0 Hin].
  apply elem_of_cons in Hx as [-> | Hx]; [exact H0 | apply Hin, Hx].
Qed.

Lemma drum_total_ticks_ge (d : drum_dict) (note : Z) (evs : list (Z * Z)) (ev : Z * Z) :
  (note, evs) ∈ d -> ev ∈ evs -> ev.1 <= drum_total_ticks d.
Proof.
  unfold drum_total_ticks.
  set (f := fun (total_ticks : Z) '((note, events) : Z * list (Z * Z)) =>
              match events with
              | [] => total_ticks
              | _ => Z.max total_ticks (py_max (map fst events))
              end).
  assert (Hmono : forall l a, a <= fold_left f l a).
  { induction l as [|[n es] l IH]; intros a; simpl; [lia |].
    etransitivity; [| apply IH]. destruct es; simpl; lia. }
  intros Hin Hev. generalize 0. induction d as [|[n es] d IH]; intros a.
  - inversion Hin.
  - simpl. apply elem_of_cons in Hin as [[= <- <-] | Hin]; [| apply IH, Hin].
    etransitivity; [| apply Hmono].
    assert (ev.1 <= py_max (map fst evs)).
    { apply py_max_ge. apply list_elem_of_fmap. exists ev. auto. }
    destruct evs; [inversion Hev | simpl in *; lia].
Qed.

Lemma dd_append_hits (lo : Z) (note : Z) (ev : Z * Z) (d : drum_dict) :
  (forall n evs e, (n, evs) ∈ d -> e ∈ evs -> lo <= e.1) ->
  lo <= ev.1 ->
  forall n evs e, (n, evs) ∈ dd_append note ev d -> e ∈ evs -> lo <= e.1.
Proof.
  induction d as [|[k es] rest IH]; intros Hd Hev n evs e Hin He; simpl in Hin.
  - apply list_elem_of_singleton in Hin. injection Hin as -> ->.
    apply list_elem_of_singleton in He. subst e. exact Hev.
  - destruct (decide (k = note)) as [-> | Hne].
    + apply elem_of_cons in Hin as [[= -> ->] | Hin].
      * apply elem_of_app in He as [He | He].
        -- apply (Hd note es e); [apply list_elem_of_here | exact He].
        -- apply list_elem_of_singleton in He. subst e. exact Hev.
      * apply (Hd n evs e); [apply list_elem_of_further; exact Hin | exact He].
    + apply elem_of_cons in Hin as [[= -> ->] | Hin].
      * apply (Hd k es e); [apply list_elem_of_here | exact He].
      * apply (IH (fun n' evs' e' Hin' => Hd n' evs' e' (list_elem_of_further _ _ _ Hin'))
                 Hev n evs e Hin He).
Qed.

Lemma collect_track_hits (track : Track) (abs_time : Z) (d : drum_dict) :
  Forall (fun msg => 0 <= time_of msg) track ->
  0 <= abs_time ->
  (forall n evs e, (n, evs) ∈ d -> e ∈ evs -> 0 <= e.1) ->
  forall n evs e, (n, evs) ∈ collect_track abs_time track d -> e ∈ evs -> 0 <= e.1.
Proof.
  revert abs_time d. induction track as [|msg rest IH]; intros abs_time d Ht Ha Hd.
  - exact Hd.
  - apply Forall_cons in Ht as [Hmsg Hrest].
    assert (0 <= abs_time + time_of msg) by lia.
    destruct msg; simpl; try (apply IH; assumption).
    case_decide; apply IH; try assumption.
    apply dd_append_hits; [exact Hd | simpl in *; lia].
Qed.

Lemma collect_drum_events_hits (trks : list Track) :
  nonneg_times trks ->
  hits_between 0 (drum_total_ticks (collect_drum_events trks)) (collect_drum_events trks).
Proof.
  intros Ht n evs e Hin He. split; [| eapply drum_total_ticks_ge; eassumption].
  revert n evs e Hin He. unfold collect_drum_events.
  assert (H : forall d,
            (forall n evs e, (n, evs) ∈ d -> e ∈ evs -> 0 <= e.1) ->
            forall n evs e,
              (n, evs) ∈ fold_left
                (fun drum_events track => collect_track 0 track drum_events) trks d ->
              e ∈ evs -> 0 <= e.1).
  { induction Ht as [|t rest Htr Hrest IH]; intros d Hd; simpl; [exact Hd |].
    apply IH. apply collect_track_hits; [exact Htr | lia | exact Hd]. }
  apply H. intros n evs e Hin. inversion Hin.
Qed.

Lemma dd_get_elem (note : Z) (d : drum_dict) (ev : Z * Z) :
  ev ∈ dd_get note d -> exists evs, (note, evs) ∈ d /\ ev ∈ evs.
Proof.
  induction d as [|[k es] rest IH]; simpl; intros Hev.
  - inversion Hev.
  - destruct (decide (k = note)) as [-> | Hne].
    + exists es. split; [apply list_elem_of_here | exact Hev].
    + destruct (IH Hev) as (evs & Hin & He). exists evs.
      split; [apply list_elem_of_further; exact Hin | exact He].
Qed.

Lemma py_index_Ok (len i : Z) : 0 <= i < len -> py_index len i = Ok (Z.to_nat i).
Proof. intros Hi. unfold py_index. rewrite decide_True by exact Hi. reflexivity. Qed.

Lemma drum_timeline_returns (eighth_ticks : Z) (evs : list (Z * Z))
    (timeline : list (list Z)) :
  eighth_ticks <> 0 ->
  Forall (fun ev => 0 <= ev.1 `div` eighth_ticks < Z.of_nat (length timeline)) evs ->
  exists timeline', drum_timeline eighth_ticks evs timeline = Ok timeline' /\
    length timeline' = length timeline.
Proof.
  intros He. revert timeline. induction evs as [|[t v] evs IH]; intros timeline Hevs; simpl.
  - exists timeline. auto.
  - apply Forall_cons in Hevs as [Hev Hevs]. simpl in Hev.
    rewrite floordiv_Ok by exact He. simpl.
    rewrite py_index_Ok by exact Hev. simpl.
    destruct (IH (alter (fun vs => vs ++ [v]) (Z.to_nat (t `div` eighth_ticks)) timeline))
      as (timeline' & Htl & Hlen).
    { rewrite length_alter. exact Hevs. }
    exists timeline'. split; [exact Htl |]. rewrite Hlen. apply length_alter.
Qed.

Lemma slot_in_grid (eighth_ticks total_ticks t : Z) :
  0 < eighth_ticks -> 0 <= t <= total_ticks ->
  0 <= t `div` eighth_ticks
  < Z.of_nat (Z.to_nat ((total_ticks + eighth_ticks - 1) `div` eighth_ticks + 1)).
Proof.
  intros He Ht.
  assert (0 <= t `div` eighth_ticks) by (apply Z.div_pos; lia).
  assert (t `div` eighth_ticks <= (total_ticks + eighth_ticks - 1) `div` eighth_ticks)
    by (apply Z.div_le_mono; lia).
  lia.
Qed.

Lemma drum_audicles_loop_returns (d : drum_dict) (slot_count eighth_ticks : Z)
    (notes : list Z) (acc : list string) :
  (forall note, returns (drum_audicle d slot_count eighth_ticks note)) ->
  returns (drum_audicles_loop d slot_count eighth_ticks notes acc).
Proof.
  intros Hall. revert acc. induction notes as [|note rest IH]; intros acc; simpl.
  - eexists. reflexivity.
  - destruct (Hall note) as [a ->]. simpl. destruct a; apply IH.
Qed.

Lemma render_drum_events_returns (d : drum_dict) (ticks_per_beat : Z) :
  2 <= ticks_per_beat ->
  hits_between 0 (drum_total_ticks d) d ->
  returns (render_drum_events d ticks_per_beat).
Proof.
  intros Htpb Hhits. unfold render_drum_events.
  destruct d as [|e0 d0] eqn:Ed; [eexists; reflexivity |]. rewrite <- Ed in *.
  assert (He : 0 < quantize_ticks ticks_per_beat true).
  { unfold quantize_ticks. apply Z.div_str_pos. lia. }
  rewrite slot_count_of_Ok by lia. cbn [mbind res_bind].
  apply drum_audicles_loop_returns. intros note. unfold drum_audicle.
  destruct (drum_timeline_returns (quantize_ticks ticks_per_beat true) (dd_get note d)
    (replicate (Z.to_nat ((drum_total_ticks d + quantize_ticks ticks_per_beat true - 1)
                          `div` quantize_ticks ticks_per_beat true + 1)) []))
    as (timeline & -> & _).
  - lia.
  - apply Forall_forall. intros ev Hev. rewrite length_replicate.
    apply dd_get_elem in Hev as (evs & Hin & Hev).
    apply slot_in_grid; [exact He |]. exact (Hhits note evs ev Hin Hev).
  - eexists. reflexivity.
Qed.

Lemma extract_drum_audicles_returns (mid : MidiFile) (ticks_per_beat : Z) :
  2 <= ticks_per_beat -> nonneg_times (tracks mid) ->
  returns (extract_drum_audicles mid ticks_per_beat).
Proof.
  intros Htpb Ht. apply render_drum_events_returns; [exact Htpb |].
  apply collect_drum_events_hits, Ht.
Qed.

Lemma melodic_audicles_returns (trks : list Track) (ticks_per_beat : Z)
    (acc : list string) :
  ticks_per_beat `div` 4 <> 0 ->
  returns (melodic_audicles trks ticks_per_beat acc).
Proof.
  intros Hs. revert acc. induction trks as [|track rest IH]; intros acc; simpl.
  - eexists. reflexivity.
  - destruct (is_drum_track track); [apply IH |].
    destruct (track_to_audicle_total track ticks_per_beat Hs) as [a ->]. simpl.
    destruct a as [[|c s]|]; apply IH.
Qed.

Lemma assemble_returns (drum_audicles audicles : list string) :
  returns (assemble drum_audicles audicles).
Proof.
  unfold assemble.
  destruct audicles as [|a audicles], drum_audicles as [|d ds];
    try case_decide; simpl; eexists; reflexivity.
Qed.

Lemma main_returns (mid : MidiFile) :
  4 <= ticks_per_beat mid -> nonneg_times (tracks mid) -> returns (main mid).
Proof.
  intros Htpb Ht. unfold main.
  destruct (extract_drum_audicles_returns mid (ticks_per_beat mid)) as [ds ->];
    [lia | exact Ht |].
  cbn [mbind res_bind].
  destruct (melodic_audicles_returns (tracks mid) (ticks_per_beat mid) []) as [ms ->].
  { assert (0 < ticks_per_beat mid `div` 4) by (apply Z.div_str_pos; lia). lia. }
  cbn [mbind res_bind].
  destruct (assemble_returns ds ms) as [out ->]. eexists. reflexivity.
Qed.

(** C3, counterexample: 1 is a positive resolution, both slot widths are 0
    there, and each encoder raises [ZeroDivisionError] on a single
    attack. *)
Lemma slot_width_zero_at_resolution_1 :
  0 < 1 /\
  quantize_ticks 1 true = 0 /\
  1 `div` 4 = 0 /\
  extract_drum_audicles {| tracks := [[NoteOn 9 38 80 0]]; ticks_per_beat := 1 |} 1
  = Raise ZeroDivisionError /\
  track_to_audicle [NoteOn 0 60 64 0] 1 = Raise ZeroDivisionError.
Proof. repeat split; vm_compute; reflexivity. Qed.

(** C3, amended: the percussion slot width, resolution div 2, is positive
    exactly from resolution 2 on, the melodic one, resolution div 4,
    exactly from resolution 4 on.  From resolution 4 on, with non-negative
    delta times, neither encoder nor the assembly raises: no division by
    zero, no slot index outside the grid. *)
Theorem slot_widths_positive_from_resolution_4 (ticks_per_beat : Z) :
  (0 < quantize_ticks ticks_per_beat true <-> 2 <= ticks_per_beat) /\
  (0 < ticks_per_beat `div` 4 <-> 4 <= ticks_per_beat) /\
  (4 <= ticks_per_beat ->
   forall track : Track, returns (track_to_audicle track ticks_per_beat)) /\
  (2 <= ticks_per_beat ->
   forall mid : MidiFile,
     nonneg_times (tracks mid) -> returns (extract_drum_audicles mid ticks_per_beat)) /\
  (4 <= ticks_per_beat ->
   forall trks : list Track,
     nonneg_times trks ->
     returns (main {| tracks := trks; ticks_per_beat := ticks_per_beat |})).
Proof.
  split; [| split; [| split; [| split]]].
  - unfold quantize_ticks. split; intros H.
    + destruct (decide (2 <= ticks_per_beat)) as [|Hlt]; [assumption |].
      assert (ticks_per_beat `div` 2 <= 1 `div` 2) by (apply Z.div_le_mono; lia).
      change (1 `div` 2) with 0 in *. lia.
    + apply Z.div_str_pos. lia.
  - split; intros H.
    + destruct (decide (4 <= ticks_per_beat)) as [|Hlt]; [assumption |].
      assert (ticks_per_beat `div` 4 <= 3 `div` 4) by (apply Z.div_le_mono; lia).
      change (3 `div` 4) with 0 in *. lia.
    + apply Z.div_str_pos. lia.
  - intros H track. apply track_to_audicle_total.
    assert (0 < ticks_per_beat `div` 4) by (apply Z.div_str_pos; lia). lia.
  - intros H mid Ht. apply extract_drum_audicles_returns; assumption.
  - intros H trks Ht. apply main_returns; assumption.
Qed.

Lemma slot_widths_positive_from_resolution_4_witness :
  returns (track_to_audicle [NoteOn 0 60 64 0; NoteOff 0 60 0 480] 480) /\
  returns (extract_drum_audicles single_snare_hit 480) /\
  returns (main {| tracks := tracks envelope_example; ticks_per_beat := 480 |}).
Proof.
  split; [| split].
  - apply (proj1 (proj2 (proj2 (slot_widths_positive_from_resolution_4 480)))). lia.
  - apply (proj1 (proj2 (proj2 (proj2 (slot_widths_positive_from_resolution_4 480))))).
    + lia.
    + unfold nonneg_times.
      repeat first [apply List.Forall_nil | apply List.Forall_cons]; simpl; lia.
  - apply (proj2 (proj2 (proj2 (proj2 (slot_widths_positive_from_resolution_4 480))))).
    + lia.
    + unfold nonneg_times.
      repeat first [apply List.Forall_nil | apply List.Forall_cons]; simpl; lia.
Defined.

(** ** Order of a release and an attack on the same tick *)

Lemma track_events_app (pre rest : Track) (abs_time : Z) :
  track_events abs_time (pre ++ rest)
  = track_events abs_time pre
    ++ track_events (fold_left (fun t msg => t + time_of msg) pre abs_time) rest.
Proof.
  revert abs_time. induction pre as [|msg pre IH]; intros abs_time; [reflexivity |].
  cbn [app track_events fold_left].
  destruct msg; repeat case_decide; rewrite IH; reflexivity.
Qed.

Lemma track_events_release (rel : Message) (note d abs_time : Z) (rest : Track) :
  is_release rel note ->
  track_events abs_time (with_time rel d :: rest)
  = (abs_time + d, note, off) :: track_events (abs_time + d) rest.
Proof.
  destruct rel as [c n v t | c n v t | |]; simpl; try contradiction.
  - intros [-> ->]. reflexivity.
  - intros ->. reflexivity.
Qed.

Lemma track_events_attack (att : Message) (note d abs_time : Z) (rest : Track) :
  is_attack att note ->
  track_events abs_time (with_time att d :: rest)
  = (abs_time + d, note, on) :: track_events (abs_time + d) rest.
Proof.
  destruct att as [c n v t | | |]; simpl; try contradiction.
  intros [-> Hv]. rewrite decide_True by exact Hv. reflexivity.
Qed.

Section SameTick.

(** A release of pitch [a] and an attack of another pitch [b], both at
    [tick]. *)
Variables (tick a b : Z).
Hypothesis Hab : a <> b.

Lemma release_attack_commute (active_notes : gset Z) :
  apply_event (apply_event active_notes a off) b on
  = apply_event (apply_event active_notes b on) a off.
Proof.
  unfold apply_event. apply set_eq. intros x.
  rewrite !elem_of_union, !elem_of_difference, !elem_of_union, !elem_of_singleton.
  split; [| tauto]. intros [-> | [Hx Hne]]; [split; [tauto | congruence] | tauto].
Qed.

(** The inner loop reads the two swapped events together or not at all. *)
Lemma consume_swap (slot_end : Z) (before after : list event) (active_notes : gset Z) :
  (exists before' active_notes',
     consume slot_end (before ++ [(tick, a, off); (tick, b, on)] ++ after) active_notes
     = (before' ++ [(tick, a, off); (tick, b, on)] ++ after, active_notes') /\
     consume slot_end (before ++ [(tick, b, on); (tick, a, off)] ++ after) active_notes
     = (before' ++ [(tick, b, on); (tick, a, off)] ++ after, active_notes')) \/
  consume slot_end (before ++ [(tick, a, off); (tick, b, on)] ++ after) active_notes
  = consume slot_end (before ++ [(tick, b, on); (tick, a, off)] ++ after) active_notes.
Proof.
  revert active_notes.
  induction before as [|[[t n] ev] before IH]; intros active_notes.
  - cbn [app consume].
    destruct (decide (tick < slot_end)) as [Hlt | Hge].
    + right. rewrite release_attack_commute. reflexivity.
    + left. exists [], active_notes. split; reflexivity.
  - cbn [app consume]. destruct (decide (t < slot_end)) as [Hlt | Hge].
    + apply IH.
    + left. exists ((t, n, ev) :: before), active_notes. split; reflexivity.
Qed.

Lemma sweep_swap (sixteenth_ticks : Z) (slots : list Z) (before after : list event)
    (active_notes : gset Z) :
  sweep sixteenth_ticks slots (before ++ [(tick, a, off); (tick, b, on)] ++ after) active_notes
  = sweep sixteenth_ticks slots (before ++ [(tick, b, on); (tick, a, off)] ++ after) active_notes.
Proof.
  revert before active_notes.
  induction slots as [|slot slots IH]; intros before active_notes; [reflexivity |].
  cbn [sweep].
  destruct (consume_swap (slot * sixteenth_ticks + sixteenth_ticks)
              before after active_notes)
    as [(before' & active' & -> & ->) | ->].
  - rewrite IH. reflexivity.
  - reflexivity.
Qed.

End SameTick.

Lemma swap_release_attack (pre post : Track) (rel att : Message) (a b d : Z)
    (ticks_per_beat : Z) :
  a <> b -> is_release rel a -> is_attack att b ->
  track_grid (release_first pre rel att d post) ticks_per_beat
  = track_grid (attack_first pre rel att d post) ticks_per_beat /\
  track_to_audicle (release_first pre rel att d post) ticks_per_beat
  = track_to_audicle (attack_first pre rel att d post) ticks_per_beat.
Proof.
  intros Hab Hrel Hatt.
  assert (Hgrid : track_grid (release_first pre rel att d post) ticks_per_beat
                  = track_grid (attack_first pre rel att d post) ticks_per_beat).
  { unfold track_grid, release_first, attack_first. cbn [app].
    rewrite 2!track_events_app.
    set (T := fold_left (fun t msg => t + time_of msg) pre 0).
    rewrite (track_events_release rel a d T _ Hrel), (track_events_attack att b 0 _ _ Hatt).
    rewrite (track_events_attack att b d T _ Hatt), (track_events_release rel a 0 _ _ Hrel).
    rewrite Z.add_0_r.
    unfold track_timeline. rewrite !map_app. cbn [map fst].
    destruct (slot_count_of _ _) as [slot_count | e]; [| reflexivity].
    cbn [mbind res_bind]. f_equal.
    apply (sweep_swap (T + d) a b Hab _ _ (track_events 0 pre)
             (track_events (T + d) post) ∅). }
  split; [exact Hgrid |].
  unfold track_grid in Hgrid. unfold track_to_audicle. rewrite <- Hgrid.
  unfold release_first, attack_first. cbn [app]. rewrite 2!track_events_app.
  rewrite (track_events_release rel a d _ _ Hrel), (track_events_attack att b d _ _ Hatt).
  destruct (track_events 0 pre); reflexivity.
Qed.

(** C4, counterexample: no two melodic tracks that differ only in whether a
    release comes before or after a same-tick attack of a different pitch
    get different audicles from [track_to_audicle]. *)
Lemma no_order_sensitivity_across_pitches :
  ~ exists (pre post : Track) (rel att : Message) (a b d ticks_per_beat : Z),
      a <> b /\ is_release rel a /\ is_attack att b /\
      track_to_audicle (release_first pre rel att d post) ticks_per_beat
      <> track_to_audicle (attack_first pre rel att d post) ticks_per_beat.
Proof.
  intros (pre & post & rel & att & a & b & d & tpb & Hab & Hrel & Hatt & Hne).
  apply Hne. apply (swap_release_attack pre post rel att a b d tpb Hab Hrel Hatt).
Qed.

(** C4, amended: two melodic tracks that differ only in whether a release
    comes before or after a same-tick attack of a different pitch have the
    same grid of held-pitch sets and the same audicle (the held pitches are
    a set, sorted when rendered).  The order of a same-tick release and
    attack shows only for one and the same pitch: attack then release
    leaves the pitch released, release then attack leaves it held. *)
Theorem same_tick_order_matters_only_for_the_same_pitch :
  (forall (pre post : Track) (rel att : Message) (a b d ticks_per_beat : Z),
     a <> b -> is_release rel a -> is_attack att b ->
     track_grid (release_first pre rel att d post) ticks_per_beat
     = track_grid (attack_first pre rel att d post) ticks_per_beat /\
     track_to_audicle (release_first pre rel att d post) ticks_per_beat
     = track_to_audicle (attack_first pre rel att d post) ticks_per_beat) /\
  track_to_audicle (release_first [] (NoteOff 0 60 0 0) (NoteOn 0 60 64 0) 0 []) 480
  = Ok (Some "*C4*") /\
  track_to_audicle (attack_first [] (NoteOff 0 60 0 0) (NoteOn 0 60 64 0) 0 []) 480
  = Ok None.
Proof.
  split; [| split; vm_compute; reflexivity].
  intros pre post rel att a b d ticks_per_beat Hab Hrel Hatt.
  apply (swap_release_attack pre post rel att a b d _ Hab Hrel Hatt).
Qed.

Lemma same_tick_order_matters_only_for_the_same_pitch_witness :
  track_to_audicle
    (release_first [NoteOn 0 60 64 0] (NoteOff 0 60 0 0) (NoteOn 0 64 64 0) 480
       [NoteOff 0 64 0 480]) 480
  = Ok (Some "*C4 - - - E4 - - -*") /\
  track_to_audicle
    (attack_first [NoteOn 0 60 64 0] (NoteOff 0 60 0 0) (NoteOn 0 64 64 0) 480
       [NoteOff 0 64 0 480]) 480
  = Ok (Some "*C4 - - - E4 - - -*").
Proof.
  split; [reflexivity |].
  destruct (proj1 same_tick_order_matters_only_for_the_same_pitch
              [NoteOn 0 60 64 0] [NoteOff 0 64 0 480]
              (NoteOff 0 60 0 0) (NoteOn 0 64 64 0) 60 64 480 480) as [_ Heq].
  - lia.
  - reflexivity.
  - split; [reflexivity | lia].
  - rewrite <- Heq. reflexivity.
Defined.

(** ** Determinism and the order of the dictionary *)

Lemma dd_get_elem_of (note : Z) (evs : list (Z * Z)) (d : drum_dict) :
  NoDup (map fst d) -> (note, evs) ∈ d -> dd_get note d = evs.
Proof.
  induction d as [|[k es] rest IH]; intros Hnd Hin; [inversion Hin |].
  cbn [map fst] in Hnd. apply NoDup_cons in Hnd as [Hk Hnd]. simpl.
  apply elem_of_cons in Hin as [[= -> ->] | Hin].
  - rewrite decide_True by reflexivity. reflexivity.
  - destruct (decide (k = note)) as [-> | Hne]; [| apply IH; assumption].
    exfalso. apply Hk. apply list_elem_of_fmap. exists (note, evs). auto.
Qed.

Lemma dd_get_absent (note : Z) (d : drum_dict) :
  note ∉ map fst d -> dd_get note d = [].
Proof.
  induction d as [|[k es] rest IH]; intros Hnotin; [reflexivity |]. simpl.
  cbn [map fst] in Hnotin. apply not_elem_of_cons in Hnotin as [Hne Hnotin].
  rewrite decide_False by congruence. apply IH, Hnotin.
Qed.

Lemma dd_get_Permutation (note : Z) (d1 d2 : drum_dict) :
  NoDup (map fst d1) -> d1 ≡ₚ d2 -> dd_get note d1 = dd_get note d2.
Proof.
  intros Hnd Hp.
  assert (Hnd2 : NoDup (map fst d2)) by (rewrite <- Hp; exact Hnd).
  destruct (decide (note ∈ map fst d1)) as [Hin | Hnotin].
  - apply list_elem_of_fmap in Hin as ([k evs] & -> & Hin). simpl.
    rewrite (dd_get_elem_of k evs d1 Hnd Hin).
    symmetry. apply dd_get_elem_of; [exact Hnd2 |]. rewrite <- Hp. exact Hin.
  - rewrite (dd_get_absent note d1 Hnotin).
    symmetry. apply dd_get_absent. rewrite <- Hp. exact Hnotin.
Qed.

Lemma fold_left_Permutation {A B : Type} (f : A -> B -> A) (l1 l2 : list B) :
  (forall a x y, f (f a x) y = f (f a y) x) ->
  l1 ≡ₚ l2 -> forall a, fold_left f l1 a = fold_left f l2 a.
Proof.
  intros Hf. induction 1 as [|x l l' _ IH|x y l|l l' l'' _ IH1 _ IH2]; intros a; simpl.
  - reflexivity.
  - apply IH.
  - rewrite Hf. reflexivity.
  - rewrite IH1. apply IH2.
Qed.

Lemma drum_total_ticks_Permutation (d1 d2 : drum_dict) :
  d1 ≡ₚ d2 -> drum_total_ticks d1 = drum_total_ticks d2.
Proof.
  intros Hp. unfold drum_total_ticks. apply fold_left_Permutation; [| exact Hp].
  intros a [n1 [|e1 es1]] [n2 [|e2 es2]]; try reflexivity. lia.
Qed.

Lemma drum_audicles_loop_ext (d1 d2 : drum_dict) (slot_count eighth_ticks : Z)
    (notes : list Z) (acc : list string) :
  (forall note, dd_get note d1 = dd_get note d2) ->
  drum_audicles_loop d1 slot_count eighth_ticks notes acc
  = drum_audicles_loop d2 slot_count eighth_ticks notes acc.
Proof.
  intros Hget. revert acc. induction notes as [|note rest IH]; intros acc; [reflexivity |].
  cbn [drum_audicles_loop]. unfold drum_audicle. rewrite Hget.
  destruct (drum_timeline _ _ _) as [timeline | e]; [| reflexivity].
  cbn [mbind res_bind]. destruct (drum_render timeline); apply IH.
Qed.

Lemma render_drum_events_Permutation (d1 d2 : drum_dict) (ticks_per_beat : Z) :
  NoDup (map fst d1) -> d1 ≡ₚ d2 ->
  render_drum_events d1 ticks_per_beat = render_drum_events d2 ticks_per_beat.
Proof.
  intros Hnd Hp. unfold render_drum_events.
  destruct d1 as [|e1 d1'] eqn:E1.
  { apply Permutation_nil_l in Hp. subst d2. reflexivity. }
  destruct d2 as [|e2 d2'] eqn:E2.
  { apply Permutation_nil_r in Hp. discriminate Hp. }
  rewrite <- E1, <- E2 in *. clear E1 E2.
  rewrite (drum_total_ticks_Permutation d1 d2 Hp).
  rewrite (sorted_of_Permutation (map fst d1) (map fst d2)) by (rewrite Hp; reflexivity).
  destruct (slot_count_of _ _) as [slot_count | e]; [| reflexivity].
  cbn [mbind res_bind]. apply drum_audicles_loop_ext.
  intros note. apply dd_get_Permutation; assumption.
Qed.

(** C8: the document is a function of the parsed input: equal tracks
    (the same messages in the same order) and an equal resolution give the
    same text, or the same exception.  The percussion lines do not depend
    on the order in which the pitches were first met, the insertion order of
    the dictionary: they come in strictly ascending pitch order, and any
    reordering of the dictionary's entries renders the same lines. *)
Theorem document_is_deterministic :
  (forall mid1 mid2 : MidiFile,
     tracks mid1 = tracks mid2 -> ticks_per_beat mid1 = ticks_per_beat mid2 ->
     main mid1 = main mid2) /\
  (forall (mid : MidiFile) (ticks_per_beat : Z) (lines : list string),
     extract_drum_audicles mid ticks_per_beat = Ok lines ->
     in_ascending_pitch_order (collect_drum_events (tracks mid)) ticks_per_beat lines) /\
  (forall trks : list Track, NoDup (map fst (collect_drum_events trks))) /\
  (forall (d1 d2 : drum_dict) (ticks_per_beat : Z),
     NoDup (map fst d1) -> d1 ≡ₚ d2 ->
     render_drum_events d1 ticks_per_beat = render_drum_events d2 ticks_per_beat) /\
  map fst (collect_drum_events (tracks envelope_example)) = [38; 36] /\
  extract_drum_audicles envelope_example 480 = Ok ["(^|)"; "(*|)"].
Proof.
  split; [| split; [| split; [| split; [| split]]]].
  - intros [trks1 tpb1] [trks2 tpb2]. simpl. intros -> ->. reflexivity.
  - exact extract_drum_audicles_sorted.
  - exact collect_drum_events_NoDup.
  - exact render_drum_events_Permutation.
  - reflexivity.
  - reflexivity.
Qed.

Lemma document_is_deterministic_witness :
  main envelope_example
  = main {| tracks := tracks envelope_example; ticks_per_beat := 480 |} /\
  render_drum_events [(38, [(0, 80)]); (36, [(0, 120)])] 480
  = render_drum_events [(36, [(0, 120)]); (38, [(0, 80)])] 480.
Proof.
  split.
  - apply (proj1 document_is_deterministic); reflexivity.
  - apply (proj1 (proj2 (proj2 (proj2 document_is_deterministic)))).
    + repeat constructor; rewrite ?list_elem_of_singleton; [discriminate | inversion 1].
    + apply perm_swap.
Defined.

(** * Further properties of the encoders *)

(** ** Exceptions of the melodic encoder *)

(** X1: [track_to_audicle] raises exactly when the track has a note event
    and the slot width, resolution div 4, is zero; the exception is then
    [ZeroDivisionError], never [IndexError].  A track without note events
    gives no audicle whatever the resolution. *)
Theorem track_to_audicle_raises_iff (track : Track) (ticks_per_beat : Z) (e : exn) :
  (track_to_audicle track ticks_per_beat = Raise e <->
   e = ZeroDivisionError /\ ticks_per_beat `div` 4 = 0 /\ track_events 0 track <> []) /\
  (track_events 0 track = [] -> track_to_audicle track ticks_per_beat = Ok None).
Proof.
  unfold track_to_audicle. split.
  - destruct (track_events 0 track) as [|ev events] eqn:Ev.
    + split; [discriminate | intros (_ & _ & H); contradiction].
    + unfold track_timeline, slot_count_of, floordiv.
      destruct (decide (ticks_per_beat `div` 4 = 0)) as [Hz | Hnz]; cbn [mbind res_bind].
      * split; [intros [= <-]; auto | intros (-> & _ & _); reflexivity].
      * split; [discriminate | intros (_ & Hz & _); contradiction].
  - intros ->. reflexivity.
Qed.

Lemma track_to_audicle_raises_iff_witness :
  track_to_audicle [MetaMessage 0; ChannelMessage 3 10] 0 = Ok None.
Proof.
  apply (proj2 (track_to_audicle_raises_iff [MetaMessage 0; ChannelMessage 3 10] 0
                  ZeroDivisionError)).
  reflexivity.
Defined.

(** ** Exceptions of the percussion encoder *)

Lemma collect_track_hits_nil (track : Track) (abs_time : Z) (d : drum_dict) :
  Forall (fun msg => ~ is_hit msg) track -> collect_track abs_time track d = d.
Proof.
  revert abs_time d. induction track as [|msg rest IH]; intros abs_time d Hno; [reflexivity |].
  apply Forall_cons in Hno as [Hmsg Hrest].
  destruct msg; simpl; try (apply IH; exact Hrest).
  simpl in Hmsg. rewrite decide_False by exact Hmsg. apply IH, Hrest.
Qed.

Lemma collect_drum_events_no_hit (trks : list Track) :
  Forall (Forall (fun msg => ~ is_hit msg)) trks -> collect_drum_events trks = [].
Proof.
  unfold collect_drum_events. intros Hno.
  assert (H : forall d : drum_dict,
            fold_left (fun drum_events track => collect_track 0 track drum_events) trks d = d).
  { induction Hno as [|track rest Htrack Hrest IH]; intros d; [reflexivity |]. simpl.
    rewrite collect_track_hits_nil by exact Htrack. apply IH. }
  apply H.
Qed.

Lemma drum_timeline_no_ZeroDivisionError (eighth_ticks : Z) (evs : list (Z * Z))
    (timeline : list (list Z)) :
  eighth_ticks <> 0 -> drum_timeline eighth_ticks evs timeline <> Raise ZeroDivisionError.
Proof.
  intros He. revert timeline. induction evs as [|[t v] evs IH]; intros timeline; simpl.
  - discriminate.
  - rewrite floordiv_Ok by exact He. cbn [mbind res_bind].
    unfold py_index. repeat case_decide; cbn [mbind res_bind]; try apply IH.
    discriminate.
Qed.

Lemma drum_audicles_loop_no_ZeroDivisionError (d : drum_dict)
    (slot_count eighth_ticks : Z) (notes : list Z) (acc : list string) :
  eighth_ticks <> 0 ->
  drum_audicles_loop d slot_count eighth_ticks notes acc <> Raise ZeroDivisionError.
Proof.
  intros He. revert acc. induction notes as [|note rest IH]; intros acc; simpl.
  - discriminate.
  - unfold drum_audicle.
    pose proof (drum_timeline_no_ZeroDivisionError eighth_ticks (dd_get note d)
                  (replicate (Z.to_nat slot_count) []) He) as Hno.
    destruct (drum_timeline _ _ _) as [timeline | e]; cbn [mbind res_bind].
    + destruct (drum_render timeline); apply IH.
    + congruence.
Qed.

(** X2: when no message of any track is a note_on on channel 9 with a
    positive velocity, [extract_drum_audicles] returns the empty list
    whatever the resolution, 0 included: the slot width is computed only
    once a hit is recorded.  It raises [ZeroDivisionError] exactly when a
    hit is recorded and the slot width, resolution div 2, is zero. *)
Theorem extract_drum_audicles_raises_iff (mid : MidiFile) (ticks_per_beat : Z) :
  (Forall (Forall (fun msg => ~ is_hit msg)) (tracks mid) ->
   extract_drum_audicles mid ticks_per_beat = Ok []) /\
  (extract_drum_audicles mid ticks_per_beat = Raise ZeroDivisionError <->
   collect_drum_events (tracks mid) <> [] /\ ticks_per_beat `div` 2 = 0).
Proof.
  unfold extract_drum_audicles. split.
  - intros Hno. rewrite collect_drum_events_no_hit by exact Hno. reflexivity.
  - unfold render_drum_events, quantize_ticks.
    destruct (collect_drum_events (tracks mid)) as [|entry d] eqn:Ed.
    + split; [discriminate | intros [H _]; contradiction].
    + destruct (decide (ticks_per_beat `div` 2 = 0)) as [Hz | Hnz].
      * unfold slot_count_of, floordiv. rewrite decide_True by exact Hz.
        split; [intros _; split; [discriminate | exact Hz] | reflexivity].
      * rewrite slot_count_of_Ok by exact Hnz. cbn [mbind res_bind].
        split; [| intros [_ Hz]; contradiction].
        intros H. exfalso.
        exact (drum_audicles_loop_no_ZeroDivisionError _ _ _ _ _ Hnz H).
Qed.

Lemma extract_drum_audicles_raises_iff_witness :
  extract_drum_audicles
    {| tracks := [[NoteOn 0 60 64 0; NoteOn 9 38 0 5]; []]; ticks_per_beat := 0 |} 0
  = Ok [].
Proof.
  apply (proj1 (extract_drum_audicles_raises_iff
                  {| tracks := [[NoteOn 0 60 64 0; NoteOn 9 38 0 5]; []];
                     ticks_per_beat := 0 |} 0)).
  simpl. repeat first [apply List.Forall_nil | apply List.Forall_cons]; simpl; lia.
Defined.

(** ** Documents without an envelope *)

Lemma track_events_nil_no_hit (track : Track) (abs_time : Z) :
  track_events abs_time track = [] -> Forall (fun msg => ~ is_hit msg) track.
Proof.
  revert abs_time. induction track as [|msg rest IH]; intros abs_time Hev; [constructor |].
  destruct msg as [c n v t | c n v t | c t | t]; simpl in Hev.
  - repeat case_decide; try discriminate Hev.
    constructor; [simpl; lia | eapply IH; exact Hev].
  - discriminate Hev.
  - constructor; [simpl; tauto | eapply IH; exact Hev].
  - constructor; [simpl; tauto | eapply IH; exact Hev].
Qed.

Lemma melodic_audicles_no_events (trks : list Track) (ticks_per_beat : Z)
    (acc : list string) :
  Forall (fun track => track_events 0 track = []) trks ->
  melodic_audicles trks ticks_per_beat acc = Ok acc.
Proof.
  induction 1 as [|track rest Htrack Hrest IH]; simpl; [reflexivity |].
  destruct (is_drum_track track); [exact IH |].
  unfold track_to_audicle. rewrite Htrack. exact IH.
Qed.

(** X3: a file without tracks, or whose tracks hold no note event, gives
    the one-line document saying that no tracks were found, whatever the
    resolution (no division is reached). *)
Theorem no_note_event_no_tracks_found (mid : MidiFile) :
  Forall (fun track => track_events 0 track = []) (tracks mid) ->
  main mid = Ok "// No tracks found.".
Proof.
  intros Hno. unfold main, extract_drum_audicles.
  rewrite collect_drum_events_no_hit.
  - cbn [render_drum_events mbind res_bind].
    rewrite melodic_audicles_no_events by exact Hno. reflexivity.
  - eapply Forall_impl; [exact Hno |]. intros track Htrack.
    eapply track_events_nil_no_hit. exact Htrack.
Qed.

Lemma no_note_event_no_tracks_found_witness :
  main {| tracks := [[MetaMessage 0; ChannelMessage 9 480]; []]; ticks_per_beat := 0 |}
  = Ok "// No tracks found.".
Proof.
  apply no_note_event_no_tracks_found.
  simpl. repeat first [apply List.Forall_nil | apply List.Forall_cons]; reflexivity.
Defined.

Lemma not_drum_track_no_hit (track : Track) :
  is_drum_track track = false -> Forall (fun msg => ~ is_hit msg) track.
Proof.
  induction track as [|msg rest IH]; intros Hnd; [constructor |].
  simpl in Hnd. destruct msg as [c n v t | c n v t | c t | t]; simpl in Hnd.
  - case_bool_decide as Hc; [discriminate Hnd |].
    constructor; [| exact (IH Hnd)]. simpl. intros [-> _]. apply Hc. reflexivity.
  - case_bool_decide as Hc; [discriminate Hnd |].
    constructor; [simpl; tauto | exact (IH Hnd)].
  - constructor; [simpl; tauto | exact (IH Hnd)].
  - constructor; [simpl; tauto | exact (IH Hnd)].
Qed.

Lemma track_to_audicle_not_empty (track : Track) (ticks_per_beat : Z) (line : string) :
  track_to_audicle track ticks_per_beat = Ok (Some line) ->
  exists s, line = "*" +:+ s.
Proof.
  unfold track_to_audicle. destruct (track_events 0 track); [discriminate |].
  intros H. apply bind_Ok in H as (timeline & _ & H). injection H as H.
  unfold melodic_render in H.
  destruct (pop_trailing "." (mida_tokens ∅ timeline)); [discriminate |].
  injection H as <-. eexists. reflexivity.
Qed.

(** X4: a file whose only track is not a drum track and has an audicle
    gets that audicle alone as its document: no envelope, no second copy
    (unlike a lone drum line), and no percussion line, since a track that
    is not a drum track holds no percussion hit. *)
Theorem single_melodic_track_document (track : Track) (resolution : Z) (line : string) :
  is_drum_track track = false ->
  track_to_audicle track resolution = Ok (Some line) ->
  main {| tracks := [track]; ticks_per_beat := resolution |} = Ok line.
Proof.
  intros Hnd Hline. unfold main, extract_drum_audicles. cbn [tracks ticks_per_beat].
  rewrite collect_drum_events_no_hit
    by (constructor; [apply not_drum_track_no_hit; exact Hnd | constructor]).
  cbn [render_drum_events mbind res_bind melodic_audicles].
  rewrite Hnd, Hline. cbn [mbind res_bind].
  destruct (track_to_audicle_not_empty track resolution line Hline) as [s ->].
  reflexivity.
Qed.

Lemma single_melodic_track_document_witness :
  main {| tracks := [[NoteOn 0 60 64 0; NoteOff 0 60 0 480]]; ticks_per_beat := 480 |}
  = Ok "*C4 - - -*".
Proof.
  apply single_melodic_track_document; reflexivity.
Defined.

(** ** Each track feeds one encoder *)

Lemma collect_drum_events_filter (trks : list Track) (d : drum_dict) :
  fold_left (fun drum_events track => collect_track 0 track drum_events) trks d
  = fold_left (fun drum_events track => collect_track 0 track drum_events)
      (filter (fun track => is_drum_track track = true) trks) d.
Proof.
  revert d. induction trks as [|track rest IH]; intros d; [reflexivity |].
  rewrite filter_cons. destruct (decide (is_drum_track track = true)) as [Hd | Hnd]; simpl.
  - apply IH.
  - rewrite collect_track_hits_nil; [apply IH |].
    apply not_drum_track_no_hit. destruct (is_drum_track track); congruence.
Qed.

Lemma melodic_audicles_filter (trks : list Track) (ticks_per_beat : Z) (acc : list string) :
  melodic_audicles trks ticks_per_beat acc
  = melodic_audicles (filter (fun track => is_drum_track track = false) trks)
      ticks_per_beat acc.
Proof.
  revert acc. induction trks as [|track rest IH]; intros acc; [reflexivity |].
  rewrite filter_cons. destruct (decide (is_drum_track track = false)) as [Hnd | Hd]; simpl.
  - rewrite Hnd. destruct (track_to_audicle track ticks_per_beat) as [[[|c s]|]|e];
      cbn [mbind res_bind]; try apply IH; reflexivity.
  - destruct (is_drum_track track); [apply IH | congruence].
Qed.

(** X5: the percussion lines are those of the drum tracks alone and the
    melodic lines those of the other tracks alone: a track that
    [is_drum_track] rejects holds no percussion hit, so every track feeds
    exactly one of the two encoders. *)
Theorem each_track_feeds_one_encoder (trks : list Track) (resolution : Z) :
  extract_drum_audicles {| tracks := trks; ticks_per_beat := resolution |} resolution
  = extract_drum_audicles
      {| tracks := filter (fun track => is_drum_track track = true) trks;
         ticks_per_beat := resolution |} resolution /\
  melodic_audicles trks resolution []
  = melodic_audicles (filter (fun track => is_drum_track track = false) trks)
      resolution [] /\
  (forall (track : Track) (abs_time : Z) (drum_events : drum_dict),
     is_drum_track track = false ->
     collect_track abs_time track drum_events = drum_events).
Proof.
  split; [| split].
  - unfold extract_drum_audicles, collect_drum_events. cbn [tracks].
    rewrite collect_drum_events_filter. reflexivity.
  - apply melodic_audicles_filter.
  - intros track abs_time drum_events Hnd.
    apply collect_track_hits_nil, not_drum_track_no_hit, Hnd.
Qed.

Lemma each_track_feeds_one_encoder_witness :
  collect_track 0 [NoteOn 0 60 64 0; ChannelMessage 9 0; NoteOff 0 60 0 480] [] = [].
Proof.
  apply (proj2 (proj2 (each_track_feeds_one_encoder [] 480))). reflexivity.
Defined.

(** ** One audicle for each percussion pitch *)

Lemma dd_append_nonempty (note : Z) (ev : Z * Z) (d : drum_dict) :
  Forall (fun entry => entry.2 <> []) d ->
  Forall (fun entry => entry.2 <> []) (dd_append note ev d).
Proof.
  induction d as [|[k evs] rest IH]; intros Hd; simpl.
  - constructor; [discriminate | constructor].
  - apply Forall_cons in Hd as [Hk Hrest]. case_decide.
    + constructor; [| exact Hrest]. simpl. intros Hnil.
      apply app_eq_nil in Hnil as [_ Hnil]. discriminate Hnil.
    + constructor; [exact Hk | exact (IH Hrest)].
Qed.

Lemma collect_track_nonempty (track : Track) (abs_time : Z) (d : drum_dict) :
  Forall (fun entry => entry.2 <> []) d ->
  Forall (fun entry => entry.2 <> []) (collect_track abs_time track d).
Proof.
  revert abs_time d. induction track as [|msg rest IH]; intros abs_time d Hd; [exact Hd |].
  destruct msg; simpl; try (apply IH; exact Hd).
  case_decide; apply IH; [apply dd_append_nonempty |]; exact Hd.
Qed.

Lemma collect_drum_events_nonempty (trks : list Track) :
  Forall (fun entry => entry.2 <> []) (collect_drum_events trks).
Proof.
  unfold collect_drum_events.
  assert (H : forall d, Forall (fun entry => entry.2 <> []) d ->
            Forall (fun entry => entry.2 <> [])
              (fold_left (fun drum_events track => collect_track 0 track drum_events)
                 trks d)).
  { induction trks as [|t rest IH]; intros d Hd; simpl; [exact Hd |].
    apply IH, collect_track_nonempty, Hd. }
  apply H. constructor.
Qed.

Lemma dd_get_nonempty (note : Z) (d : drum_dict) :
  Forall (fun entry => entry.2 <> []) d -> note ∈ map fst d -> dd_get note d <> [].
Proof.
  induction d as [|[k evs] rest IH]; intros Hd Hin; [inversion Hin |].
  apply Forall_cons in Hd as [Hk Hrest]. simpl.
  destruct (decide (k = note)) as [-> | Hne]; [exact Hk |].
  apply IH; [exact Hrest |]. cbn [map fst] in Hin.
  apply elem_of_cons in Hin as [Heq | Hin]; [congruence | exact Hin].
Qed.

Lemma py_index_lt (len i : Z) (n : nat) :
  py_index len i = Ok n -> 0 <= len -> (Z.of_nat n < len).
Proof.
  unfold py_index. intros H Hlen. repeat case_decide; try discriminate H.
  - injection H as <-. lia.
  - injection H as <-. lia.
Qed.

Lemma drum_timeline_some_hit (eighth_ticks : Z) (evs : list (Z * Z))
    (timeline timeline' : list (list Z)) :
  drum_timeline eighth_ticks evs timeline = Ok timeline' ->
  evs <> [] \/ Exists (fun slot => slot <> []) timeline ->
  Exists (fun slot => slot <> []) timeline'.
Proof.
  revert timeline. induction evs as [|[t v] evs IH]; intros timeline H Hsome; simpl in H.
  - injection H as <-. destruct Hsome as [Hne | Hex]; [contradiction | exact Hex].
  - apply bind_Ok in H as (slot & _ & H). apply bind_Ok in H as (i & Hi & H).
    apply (IH _ H). right.
    apply py_index_lt in Hi; [| lia].
    destruct (lookup_lt_is_Some_2 timeline i) as [vs Hvs]; [lia |].
    apply Exists_exists. exists (vs ++ [v]). split.
    + apply list_elem_of_lookup. exists i.
      rewrite list_lookup_alter, Hvs. rewrite decide_True by reflexivity. reflexivity.
    + intros Hnil. apply app_eq_nil in Hnil as [_ Hnil]. discriminate Hnil.
Qed.

Lemma drum_token_not_rest (velocities : list Z) :
  velocities <> [] -> drum_token velocities <> "_".
Proof.
  destruct velocities as [|v [|v' vs]]; intros Hne; [contradiction | |].
  - unfold drum_token, velocity_to_typeset. repeat case_decide; discriminate.
  - unfold drum_token. discriminate.
Qed.

Lemma pop_trailing_nonempty (rest : string) (tokens : list string) :
  Exists (fun t => t <> rest) tokens -> pop_trailing rest tokens <> [].
Proof.
  induction tokens as [|t ts IH]; intros Hex; [inversion Hex |]. simpl.
  destruct (pop_trailing rest ts) as [|t' ts'] eqn:E; [| discriminate].
  apply Exists_cons in Hex as [Ht | Hts].
  - rewrite decide_False by exact Ht. discriminate.
  - exfalso. exact (IH Hts eq_refl).
Qed.

Lemma drum_render_some_hit (timeline : list (list Z)) :
  Exists (fun slot => slot <> []) timeline -> is_Some (drum_render timeline).
Proof.
  intros Hex. unfold drum_render.
  assert (Hpop : pop_trailing "_" (map drum_token timeline) <> []).
  { apply pop_trailing_nonempty. apply Exists_exists in Hex as (slot & Hin & Hne).
    apply Exists_exists. exists (drum_token slot).
    split; [apply list_elem_of_fmap; exists slot; auto | apply drum_token_not_rest, Hne]. }
  destruct (pop_trailing "_" (map drum_token timeline)); [contradiction | eexists; reflexivity].
Qed.

Lemma drum_audicles_loop_length (d : drum_dict) (slot_count eighth_ticks : Z)
    (notes : list Z) (acc lines : list string) :
  (forall note, note ∈ notes -> dd_get note d <> []) ->
  drum_audicles_loop d slot_count eighth_ticks notes acc = Ok lines ->
  length lines = (length acc + length notes)%nat.
Proof.
  revert acc. induction notes as [|note rest IH]; intros acc Hget H; simpl in H.
  - injection H as <-. simpl. lia.
  - apply bind_Ok in H as (a & Ha & H). unfold drum_audicle in Ha.
    apply bind_Ok in Ha as (timeline & Htl & Ha). injection Ha as <-.
    destruct (drum_render_some_hit timeline) as [line Hline].
    { eapply drum_timeline_some_hit; [exact Htl |]. left.
      apply Hget, list_elem_of_here. }
    rewrite Hline in H. apply IH in H.
    + rewrite H, length_app. simpl. lia.
    + intros n Hn. apply Hget, list_elem_of_further, Hn.
Qed.

(** X6: when [extract_drum_audicles] returns, it returns one audicle for
    each distinct percussion pitch that is hit: every pitch of the
    dictionary has a hit, so its token list is never empty after the
    trimming and the branch that skips a pitch is never taken. *)
Theorem one_audicle_per_percussion_pitch (mid : MidiFile) (resolution : Z)
    (lines : list string) :
  extract_drum_audicles mid resolution = Ok lines ->
  length lines = length (collect_drum_events (tracks mid)) /\
  NoDup (map fst (collect_drum_events (tracks mid))).
Proof.
  intros H. split; [| apply collect_drum_events_NoDup].
  unfold extract_drum_audicles, render_drum_events in H.
  pose proof (collect_drum_events_nonempty (tracks mid)) as Hne.
  destruct (collect_drum_events (tracks mid)) as [|entry d] eqn:Ed.
  - injection H as <-. reflexivity.
  - apply bind_Ok in H as (slot_count & _ & H).
    apply drum_audicles_loop_length in H.
    + rewrite H. unfold sorted.
      rewrite (Permutation_length (merge_sort_Permutation Z.le _)).
      rewrite length_map. reflexivity.
    + intros note Hin. apply dd_get_nonempty; [exact Hne |].
      rewrite <- (sorted_Permutation (map fst (entry :: d))). exact Hin.
Qed.

Lemma one_audicle_per_percussion_pitch_witness :
  length ["(^|)"; "(*|)"] = length (collect_drum_events (tracks envelope_example)) /\
  NoDup (map fst (collect_drum_events (tracks envelope_example))).
Proof.
  apply (one_audicle_per_percussion_pitch envelope_example 480). reflexivity.
Defined.

(** ** The slots of a percussion grid *)

Lemma hits_in_slot_cons (eighth_ticks t v : Z) (evs : list (Z * Z)) (i : nat) :
  hits_in_slot eighth_ticks ((t, v) :: evs) i
  = if decide (Z.to_nat (t `div` eighth_ticks) = i)
    then v :: hits_in_slot eighth_ticks evs i
    else hits_in_slot eighth_ticks evs i.
Proof.
  unfold hits_in_slot. rewrite filter_cons. simpl.
  destruct (decide (Z.to_nat (t `div` eighth_ticks) = i)); reflexivity.
Qed.

Lemma drum_timeline_lookup (eighth_ticks : Z) (evs : list (Z * Z))
    (timeline : list (list Z)) :
  eighth_ticks <> 0 ->
  Forall (fun ev => 0 <= ev.1 `div` eighth_ticks < Z.of_nat (length timeline)) evs ->
  exists timeline',
    drum_timeline eighth_ticks evs timeline = Ok timeline' /\
    length timeline' = length timeline /\
    forall (i : nat) (slot : list Z),
      timeline !! i = Some slot ->
      timeline' !! i = Some (slot ++ hits_in_slot eighth_ticks evs i).
Proof.
  intros He. revert timeline.
  induction evs as [|[t v] evs IH]; intros timeline Hevs.
  - exists timeline. split; [reflexivity |]. split; [reflexivity |].
    intros i slot Hi. unfold hits_in_slot. simpl. rewrite app_nil_r. exact Hi.
  - apply Forall_cons in Hevs as [Hev Hevs]. simpl in Hev.
    cbn [drum_timeline]. rewrite floordiv_Ok by exact He. cbn [mbind res_bind].
    rewrite py_index_Ok by exact Hev. cbn [mbind res_bind].
    destruct (IH (alter (fun vs => vs ++ [v]) (Z.to_nat (t `div` eighth_ticks)) timeline))
      as (timeline' & Htl & Hlen & Hslots).
    { rewrite length_alter. exact Hevs. }
    exists timeline'. split; [exact Htl |].
    split; [rewrite Hlen; apply length_alter |].
    intros i slot Hi. rewrite hits_in_slot_cons.
    destruct (decide (Z.to_nat (t `div` eighth_ticks) = i)) as [Heq | Hne].
    + subst i. rewrite (Hslots _ (slot ++ [v])).
      * rewrite <- app_assoc. reflexivity.
      * rewrite list_lookup_alter, Hi. rewrite decide_True by reflexivity. reflexivity.
    + apply Hslots. rewrite list_lookup_alter_ne by exact Hne. exact Hi.
Qed.

(** X7: the grid of one percussion pitch: when every hit falls inside the
    grid, slot [i] holds the velocities of exactly the hits whose absolute
    time divided by the slot width is [i], in the order they were recorded;
    no hit is lost, moved or doubled, and the grid keeps its length. *)
Theorem drum_grid_slots (eighth_ticks : Z) (evs : list (Z * Z)) (n : nat) :
  eighth_ticks <> 0 ->
  Forall (fun ev => 0 <= ev.1 `div` eighth_ticks < Z.of_nat n) evs ->
  exists grid,
    drum_timeline eighth_ticks evs (replicate n []) = Ok grid /\
    length grid = n /\
    forall i : nat, (i < n)%nat -> grid !! i = Some (hits_in_slot eighth_ticks evs i).
Proof.
  intros He Hevs.
  destruct (drum_timeline_lookup eighth_ticks evs (replicate n []) He)
    as (grid & Hgrid & Hlen & Hslots).
  { rewrite length_replicate. exact Hevs. }
  exists grid. split; [exact Hgrid |]. rewrite length_replicate in Hlen.
  split; [exact Hlen |]. intros i Hi.
  apply (Hslots i []). apply lookup_replicate_2. exact Hi.
Qed.

Lemma drum_grid_slots_witness :
  exists grid,
    drum_timeline 240 [(0, 80); (250, 120); (10, 20)] (replicate 3 []) = Ok grid /\
    length grid = 3%nat /\
    forall i : nat, (i < 3)%nat ->
      grid !! i = Some (hits_in_slot 240 [(0, 80); (250, 120); (10, 20)] i).
Proof.
  apply (drum_grid_slots 240 [(0, 80); (250, 120); (10, 20)] 3).
  - lia.
  - repeat first [apply List.Forall_nil | apply List.Forall_cons]; simpl;
      (split; [apply Z.div_pos; lia | apply Z.div_lt_upper_bound; lia]).
Defined.

(** ** What the dictionary of hits holds *)

Lemma dd_get_dd_append (note n : Z) (ev : Z * Z) (d : drum_dict) :
  dd_get note (dd_append n ev d)
  = if decide (n = note) then dd_get note d ++ [ev] else dd_get note d.
Proof.
  induction d as [|[k evs] rest IH]; simpl.
  - destruct (decide (n = note)); reflexivity.
  - destruct (decide (k = n)) as [-> | Hkn]; simpl.
    + destruct (decide (n = note)); reflexivity.
    + rewrite IH. destruct (decide (k = note)) as [-> | Hk]; [| reflexivity].
      rewrite decide_False by congruence. reflexivity.
Qed.

Lemma hits_of_app (note : Z) (h1 h2 : list (Z * (Z * Z))) :
  hits_of note (h1 ++ h2) = hits_of note h1 ++ hits_of note h2.
Proof. unfold hits_of. rewrite filter_app, fmap_app. reflexivity. Qed.

Lemma collect_track_get (note : Z) (track : Track) (abs_time : Z) (d : drum_dict) :
  dd_get note (collect_track abs_time track d)
  = dd_get note d ++ hits_of note (track_hits abs_time track).
Proof.
  revert abs_time d. induction track as [|msg rest IH]; intros abs_time d.
  - simpl. unfold hits_of. simpl. rewrite app_nil_r. reflexivity.
  - destruct msg as [c n v t | c n v t | c t | t]; simpl; try apply IH.
    destruct (decide (c = 9 /\ v > 0)); [| apply IH].
    rewrite IH, dd_get_dd_append.
    change ((n, (abs_time + t, v)) :: track_hits (abs_time + t) rest)
      with ([(n, (abs_time + t, v))] ++ track_hits (abs_time + t) rest).
    rewrite hits_of_app. unfold hits_of at 2. rewrite filter_cons. simpl.
    destruct (decide (n = note)); simpl; [rewrite <- app_assoc |]; reflexivity.
Qed.

Lemma collect_drum_events_get (note : Z) (trks : list Track) :
  dd_get note (collect_drum_events trks)
  = hits_of note (concat (map (track_hits 0) trks)).
Proof.
  unfold collect_drum_events.
  assert (H : forall d,
            dd_get note (fold_left
              (fun drum_events track => collect_track 0 track drum_events) trks d)
            = dd_get note d ++ hits_of note (concat (map (track_hits 0) trks))).
  { induction trks as [|track rest IH]; intros d; simpl.
    - unfold hits_of. simpl. rewrite app_nil_r. reflexivity.
    - rewrite IH, collect_track_get, hits_of_app, <- app_assoc. reflexivity. }
  rewrite H. reflexivity.
Qed.

(** X8: the dictionary pools the percussion hits of all tracks by pitch:
    under a pitch it holds exactly the channel-9 attacks of that pitch, with
    their absolute times and velocities, track after track and in message
    order inside a track; a pitch is a key exactly when it has such a
    hit. *)
Theorem drum_events_pool_hits_by_pitch (trks : list Track) (note : Z) :
  dd_get note (collect_drum_events trks)
  = hits_of note (concat (map (track_hits 0) trks)) /\
  (note ∈ map fst (collect_drum_events trks) <->
   hits_of note (concat (map (track_hits 0) trks)) <> []).
Proof.
  split; [apply collect_drum_events_get |].
  rewrite <- collect_drum_events_get. split.
  - apply dd_get_nonempty, collect_drum_events_nonempty.
  - intros Hne. destruct (decide (note ∈ map fst (collect_drum_events trks))) as [Hin | Hnotin];
      [exact Hin |].
    exfalso. apply Hne, dd_get_absent, Hnotin.
Qed.

(** ** The melodic sweep reads every event *)

Lemma consume_held (slot_end : Z) (evs : list event) (active_notes : gset Z) :
  held_after (consume slot_end evs active_notes).1 (consume slot_end evs active_notes).2
  = held_after evs active_notes /\
  forall e, e ∈ (consume slot_end evs active_notes).1 -> e ∈ evs.
Proof.
  revert active_notes. induction evs as [|[[t n] ev] evs IH]; intros active_notes.
  - split; [reflexivity | auto].
  - cbn [consume]. destruct (decide (t < slot_end)); [| split; [reflexivity | auto]].
    destruct (IH (apply_event active_notes n ev)) as [Hheld Hin].
    split; [exact Hheld |]. intros e He. apply list_elem_of_further, Hin, He.
Qed.

Lemma consume_all (slot_end : Z) (evs : list event) (active_notes : gset Z) :
  (forall e, e ∈ evs -> e.1.1 < slot_end) ->
  consume slot_end evs active_notes = ([], held_after evs active_notes).
Proof.
  revert active_notes. induction evs as [|[[t n] ev] evs IH]; intros active_notes Hlt.
  - reflexivity.
  - cbn [consume]. rewrite decide_True by (apply (Hlt (t, n, ev)), list_elem_of_here).
    apply IH. intros e He. apply Hlt, list_elem_of_further, He.
Qed.

Lemma sweep_length (sixteenth_ticks : Z) (slots : list Z) (evs : list event)
    (active_notes : gset Z) :
  length (sweep sixteenth_ticks slots evs active_notes) = length slots.
Proof.
  revert evs active_notes. induction slots as [|slot slots IH]; intros evs active_notes.
  - reflexivity.
  - cbn [sweep]. destruct (consume _ evs active_notes) as [evs' active']. simpl.
    rewrite IH. reflexivity.
Qed.

Lemma sweep_last (sixteenth_ticks : Z) (slots : list Z) (evs : list event)
    (active_notes : gset Z) (slot : Z) :
  last slots = Some slot ->
  (forall e, e ∈ evs -> e.1.1 < slot * sixteenth_ticks + sixteenth_ticks) ->
  last (sweep sixteenth_ticks slots evs active_notes) = Some (held_after evs active_notes).
Proof.
  revert evs active_notes.
  induction slots as [|s0 [|s1 slots] IH]; intros evs active_notes Hlast Hlt.
  - discriminate Hlast.
  - injection Hlast as ->. cbn [sweep]. rewrite consume_all by exact Hlt. reflexivity.
  - rewrite last_cons_cons in Hlast.
    destruct (consume_held (s0 * sixteenth_ticks + sixteenth_ticks) evs active_notes)
      as [Hheld Hin].
    change (sweep sixteenth_ticks (s0 :: s1 :: slots) evs active_notes)
      with (let '(evs', active') :=
              consume (s0 * sixteenth_ticks + sixteenth_ticks) evs active_notes in
            active' :: sweep sixteenth_ticks (s1 :: slots) evs' active').
    destruct (consume (s0 * sixteenth_ticks + sixteenth_ticks) evs active_notes)
      as [evs' active']. simpl in Hheld, Hin.
    rewrite last_cons. rewrite (IH evs' active' Hlast).
    + rewrite Hheld. reflexivity.
    + intros e He. apply Hlt, Hin, He.
Qed.

Lemma track_events_ticks (track : Track) (abs_time : Z) :
  Forall (fun msg => 0 <= time_of msg) track -> 0 <= abs_time ->
  Forall (fun e : event => 0 <= e.1.1) (track_events abs_time track).
Proof.
  revert abs_time. induction track as [|msg rest IH]; intros abs_time Ht Ha; [constructor |].
  apply Forall_cons in Ht as [Hmsg Hrest].
  assert (0 <= abs_time + time_of msg) by lia.
  destruct msg; simpl in *; repeat case_decide;
    repeat (constructor; [simpl; lia |]); apply IH; assumption.
Qed.

(** X9: with a positive slot width and non-negative delta times, the grid
    of a track with note events has ceil(last tick / slot width) + 1 slots,
    and its last slot holds exactly the pitches held once every event of
    the track is applied in order: the sweep reads all events, none is
    left over. *)
Theorem melodic_grid_reads_every_event (track : Track) (resolution : Z) :
  4 <= resolution ->
  Forall (fun msg => 0 <= time_of msg) track ->
  track_events 0 track <> [] ->
  exists grid,
    track_grid track resolution = Ok grid /\
    Z.of_nat (length grid)
    = (py_max (map (fun e : event => e.1.1) (track_events 0 track))
       + resolution `div` 4 - 1) `div` (resolution `div` 4) + 1 /\
    last grid = Some (held_after (track_events 0 track) ∅).
Proof.
  intros Hres Ht Hne.
  assert (Hs : 0 < resolution `div` 4) by (apply Z.div_str_pos; lia).
  assert (Hticks : Forall (fun e : event => 0 <= e.1.1) (track_events 0 track))
    by (apply track_events_ticks; [exact Ht | lia]).
  unfold track_grid, track_timeline. unfold event in *.
  generalize dependent (track_events 0 track). intros events Hne Hticks.
  generalize dependent (resolution `div` 4). intros six Hs.
  assert (Hmax : forall e, e ∈ events ->
            e.1.1 <= py_max (map (fun e : Z * Z * evtype => e.1.1) events)).
  { intros e He. apply py_max_ge. apply list_elem_of_fmap. exists e. auto. }
  assert (Htotal : 0 <= py_max (map (fun e : Z * Z * evtype => e.1.1) events)).
  { destruct events as [|e0 evs]; [contradiction |].
    apply Forall_cons in Hticks as [He0 _].
    etransitivity; [exact He0 |]. apply Hmax, list_elem_of_here. }
  generalize dependent (py_max (map (fun e : Z * Z * evtype => e.1.1) events)).
  intros total Hmax Htotal.
  assert (Hq : 0 <= (total + six - 1) `div` six) by (apply Z.div_pos; lia).
  rewrite slot_count_of_Ok by lia. cbn [mbind res_bind].
  eexists. split; [reflexivity |]. split.
  - rewrite sweep_length, length_seqZ. lia.
  - apply (sweep_last _ _ _ _ ((total + six - 1) `div` six)).
    + rewrite last_lookup, length_seqZ.
      rewrite lookup_seqZ_lt by lia. f_equal. lia.
    + intros e He. specialize (Hmax e He).
      assert (Hdm : total + six - 1
                    = six * ((total + six - 1) `div` six) + (total + six - 1) `mod` six)
        by (apply Z.div_mod; lia).
      pose proof (Z.mod_pos_bound (total + six - 1) six Hs) as Hmod.
      nia.
Qed.

Lemma melodic_grid_reads_every_event_witness :
  exists grid,
    track_grid [NoteOn 0 60 64 0; NoteOn 0 64 64 100; NoteOff 0 60 0 380] 480 = Ok grid /\
    Z.of_nat (length grid)
    = (py_max (map (fun e : event => e.1.1)
                 (track_events 0 [NoteOn 0 60 64 0; NoteOn 0 64 64 100; NoteOff 0 60 0 380]))
       + 480 `div` 4 - 1) `div` (480 `div` 4) + 1 /\
    last grid
    = Some (held_after
              (track_events 0 [NoteOn 0 60 64 0; NoteOn 0 64 64 100; NoteOff 0 60 0 380]) ∅).
Proof.
  apply melodic_grid_reads_every_event.
  - lia.
  - repeat first [apply List.Forall_nil | apply List.Forall_cons]; simpl; lia.
  - discriminate.
Defined.

(** ** Messages that are not notes *)

Lemma track_events_non_note (tail : Track) (abs_time : Z) :
  Forall (fun msg => type_of msg = other_type) tail -> track_events abs_time tail = [].
Proof.
  revert abs_time. induction tail as [|msg rest IH]; intros abs_time Hnn; [reflexivity |].
  apply Forall_cons in Hnn as [Hmsg Hrest].
  destruct msg; simpl in *; try discriminate Hmsg; apply IH, Hrest.
Qed.

Lemma collect_track_app (t1 t2 : Track) (abs_time : Z) (d : drum_dict) :
  collect_track abs_time (t1 ++ t2) d
  = collect_track (fold_left (fun t msg => t + time_of msg) t1 abs_time) t2
      (collect_track abs_time t1 d).
Proof.
  revert abs_time d. induction t1 as [|msg rest IH]; intros abs_time d; [reflexivity |].
  cbn [app collect_track fold_left].
  destruct msg; try case_decide; apply IH.
Qed.

Lemma is_drum_track_app (t1 t2 : Track) :
  is_drum_track (t1 ++ t2) = is_drum_track t1 || is_drum_track t2.
Proof.
  induction t1 as [|msg rest IH]; [reflexivity |]. cbn [app is_drum_track].
  destruct (type_of msg); try case_bool_decide; try reflexivity; exact IH.
Qed.

(** X10: messages that are neither note_on nor note_off count only through
    their delta times: at the end of a track (an end-of-track marker after
    a long pause, say) they change nothing: not the melodic audicle, whose
    grid ends at the last note event, not the recorded percussion hits, not
    the classification of the track. *)
Theorem trailing_non_note_messages_are_ignored (track tail : Track) :
  Forall (fun msg => type_of msg = other_type) tail ->
  (forall resolution, track_to_audicle (track ++ tail) resolution
                      = track_to_audicle track resolution) /\
  (forall abs_time drum_events,
     collect_track abs_time (track ++ tail) drum_events
     = collect_track abs_time track drum_events) /\
  is_drum_track (track ++ tail) = is_drum_track track.
Proof.
  intros Hnn. split; [| split].
  - intros resolution. unfold track_to_audicle.
    rewrite track_events_app, (track_events_non_note tail _ Hnn), app_nil_r. reflexivity.
  - intros abs_time d. rewrite collect_track_app. apply collect_track_hits_nil.
    eapply Forall_impl; [exact Hnn |]. intros msg Hmsg. destruct msg; simpl; try tauto.
    discriminate Hmsg.
  - rewrite is_drum_track_app.
    assert (Htail : is_drum_track tail = false).
    { clear track. induction Hnn as [|msg rest Hmsg Hrest IH]; [reflexivity |].
      simpl. rewrite Hmsg. exact IH. }
    rewrite Htail. apply orb_false_r.
Qed.

Lemma trailing_non_note_messages_are_ignored_witness :
  track_to_audicle ([NoteOn 0 60 64 0; NoteOff 0 60 0 480] ++ [MetaMessage 9600]) 480
  = track_to_audicle [NoteOn 0 60 64 0; NoteOff 0 60 0 480] 480.
Proof.
  apply (trailing_non_note_messages_are_ignored
           [NoteOn 0 60 64 0; NoteOff 0 60 0 480] [MetaMessage 9600]).
  repeat first [apply List.Forall_nil | apply List.Forall_cons]; reflexivity.
Defined.

(** ** Runs of an unchanged chord *)

Lemma mida_tokens_sustain (notes : gset Z) (k : nat) (rest : list (gset Z)) :
  notes <> ∅ ->
  mida_tokens notes (replicate k notes ++ rest)
  = replicate k "-" ++ mida_tokens notes rest.
Proof.
  intros Hne. induction k as [|k IH]; [reflexivity |].
  cbn [replicate app mida_tokens]. rewrite IH. unfold mida_token.
  rewrite decide_False by exact Hne. rewrite decide_True by reflexivity.
  reflexivity.
Qed.

(** X11: run-length compression of a sustained chord: a non-empty set of
    pitches that differs from the slot before it and stays for [k] more
    slots is written once, as its pitch names in ascending order joined by
    the tilde, followed by [k] sustain marks; the slots after the run are
    rendered against the chord of the run. *)
Theorem sustained_chord_is_written_once (prev notes : gset Z) (k : nat)
    (rest : list (gset Z)) :
  notes <> ∅ -> notes <> prev ->
  mida_tokens prev (replicate (S k) notes ++ rest)
  = join "~" (map midi_note_to_mida (sorted (elements notes)))
    :: replicate k "-" ++ mida_tokens notes rest.
Proof.
  intros Hne Hprev. cbn [replicate app mida_tokens].
  rewrite (mida_tokens_sustain notes k rest Hne). unfold mida_token at 1.
  rewrite decide_False by exact Hne. rewrite decide_False by exact Hprev.
  reflexivity.
Qed.

Lemma sustained_chord_is_written_once_witness :
  mida_tokens ∅ (replicate 3 {[64; 60]} ++ [∅])
  = join "~" (map midi_note_to_mida (sorted (elements ({[64; 60]} : gset Z))))
    :: replicate 2 "-" ++ mida_tokens {[64; 60]} [∅].
Proof.
  apply (sustained_chord_is_written_once ∅ {[64; 60]} 2 [∅]).
  - intros H. apply (f_equal elements) in H. vm_compute in H. discriminate H.
  - intros H. apply (f_equal elements) in H. vm_compute in H. discriminate H.
Defined.

(** ** Pitch names *)

Lemma pretty_N_go_not_sharp (x : N) (s : string) :
  (forall s', s <> "#" +:+ s') -> forall s', pretty_N_go x s <> "#" +:+ s'.
Proof.
  revert s. induction (N.lt_wf_0 x) as [x _ IH]; intros s Hs s'.
  destruct (decide (x = 0%N)) as [-> | Hx].
  - rewrite pretty_N_go_0. apply Hs.
  - rewrite pretty_N_go_step by lia. apply IH.
    + apply N.div_lt; lia.
    + intros s''. unfold pretty_N_char. cbn. repeat case_match; discriminate.
Qed.

Lemma pretty_Z_not_sharp (z : Z) (s : string) : pretty z <> "#" +:+ s.
Proof.
  destruct z as [|p|p]; [discriminate | | discriminate].
  unfold pretty, pretty_Z, pretty, pretty_positive, pretty, pretty_N.
  rewrite decide_False by discriminate.
  apply pretty_N_go_not_sharp. discriminate.
Qed.

Lemma note_name_inj (r1 r2 : nat) (o1 o2 : Z) :
  (r1 < 12)%nat -> (r2 < 12)%nat ->
  default "" (note_names !! r1) +:+ pretty o1
  = default "" (note_names !! r2) +:+ pretty o2 ->
  r1 = r2 /\ o1 = o2.
Proof.
  intros H1 H2 H.
  assert (E1 : (r1 = 0 \/ r1 = 1 \/ r1 = 2 \/ r1 = 3 \/ r1 = 4 \/ r1 = 5 \/ r1 = 6 \/
                r1 = 7 \/ r1 = 8 \/ r1 = 9 \/ r1 = 10 \/ r1 = 11)%nat) by lia.
  assert (E2 : (r2 = 0 \/ r2 = 1 \/ r2 = 2 \/ r2 = 3 \/ r2 = 4 \/ r2 = 5 \/ r2 = 6 \/
                r2 = 7 \/ r2 = 8 \/ r2 = 9 \/ r2 = 10 \/ r2 = 11)%nat) by lia.
  clear H1 H2.
  repeat (destruct E1 as [E1 | E1]); subst r1;
    repeat (destruct E2 as [E2 | E2]); subst r2;
    cbn in H; try discriminate H; repeat (injection H as H);
    first [ exfalso; exact (pretty_Z_not_sharp _ _ H)
          | exfalso; symmetry in H; exact (pretty_Z_not_sharp _ _ H)
          | split; [reflexivity | exact (pretty_Z_inj _ _ H)] ].
Qed.

Lemma midi_note_to_mida_inj (n1 n2 : Z) :
  midi_note_to_mida n1 = midi_note_to_mida n2 -> n1 = n2.
Proof.
  unfold midi_note_to_mida. intros H.
  assert (Hm1 : 0 <= n1 `mod` 12 < 12) by (apply Z.mod_pos_bound; lia).
  assert (Hm2 : 0 <= n2 `mod` 12 < 12) by (apply Z.mod_pos_bound; lia).
  apply note_name_inj in H as [Hr Ho]; [| lia | lia].
  assert (n1 `mod` 12 = n2 `mod` 12) by lia.
  rewrite (Z.div_mod n1 12), (Z.div_mod n2 12) by lia. lia.
Qed.

(** X12: the name of a pitch is read from the table at [note % 12], an
    index that is inside the table for every integer (negative ones
    included), and distinct pitches get distinct names: the letter, the
    sharp and the octave number tell the pitch. *)
Theorem pitch_names_are_distinct (n1 n2 : Z) :
  (n1 <> n2 -> midi_note_to_mida n1 <> midi_note_to_mida n2) /\
  (exists name, note_names !! Z.to_nat (n1 `mod` 12) = Some name /\
     midi_note_to_mida n1 = name +:+ pretty (n1 `div` 12 - 1)).
Proof.
  split.
  - intros Hne H. apply Hne, midi_note_to_mida_inj, H.
  - assert (Hm : 0 <= n1 `mod` 12 < 12) by (apply Z.mod_pos_bound; lia).
    destruct (lookup_lt_is_Some_2 note_names (Z.to_nat (n1 `mod` 12))) as [name Hname].
    { simpl. lia. }
    exists name. split; [exact Hname |]. unfold midi_note_to_mida. rewrite Hname. reflexivity.
Qed.

Lemma pitch_names_are_distinct_witness :
  midi_note_to_mida 60 <> midi_note_to_mida 61 /\
  midi_note_to_mida (-1) <> midi_note_to_mida 11.
Proof.
  split.
  - apply (proj1 (pitch_names_are_distinct 60 61)). lia.
  - apply (proj1 (pitch_names_are_distinct (-1) 11)). lia.
Defined.

(** ** The document does not depend on the unit of time *)

Section Scaling.

(** Every delta time and the resolution are multiplied by [k]. *)
Variable k : Z.
Hypothesis Hk : 0 < k.

Lemma time_of_with_time (msg : Message) (t : Z) : time_of (with_time msg t) = t.
Proof. destruct msg; reflexivity. Qed.

Lemma track_events_scale (track : Track) (abs_time : Z) :
  track_events (k * abs_time) (scale_track k track)
  = map (scale_event k) (track_events abs_time track).
Proof.
  revert abs_time. induction track as [|msg rest IH]; intros abs_time; [reflexivity |].
  cbn [scale_track map track_events]. rewrite time_of_with_time.
  rewrite <- Z.mul_add_distr_l. fold (scale_track k rest).
  destruct msg; cbn [with_time]; repeat case_decide; rewrite IH; reflexivity.
Qed.

Lemma consume_scale (slot_end : Z) (evs : list event) (active_notes : gset Z) :
  consume (k * slot_end) (map (scale_event k) evs) active_notes
  = (map (scale_event k) (consume slot_end evs active_notes).1,
     (consume slot_end evs active_notes).2).
Proof.
  revert active_notes. induction evs as [|[[t n] ev] evs IH]; intros active_notes.
  - reflexivity.
  - cbn [map scale_event consume fst snd].
    destruct (decide (t < slot_end)) as [Hlt | Hge].
    + rewrite decide_True by (apply Z.mul_lt_mono_pos_l; assumption). apply IH.
    + rewrite decide_False; [reflexivity |].
      intros Hlt. apply Hge. apply Z.mul_lt_mono_pos_l in Hlt; assumption.
Qed.

Lemma sweep_scale (sixteenth_ticks : Z) (slots : list Z) (evs : list event)
    (active_notes : gset Z) :
  sweep (k * sixteenth_ticks) slots (map (scale_event k) evs) active_notes
  = sweep sixteenth_ticks slots evs active_notes.
Proof.
  revert evs active_notes. induction slots as [|slot slots IH]; intros evs active_notes.
  - reflexivity.
  - cbn [sweep].
    replace (slot * (k * sixteenth_ticks) + k * sixteenth_ticks)
      with (k * (slot * sixteenth_ticks + sixteenth_ticks)) by lia.
    rewrite consume_scale.
    destruct (consume (slot * sixteenth_ticks + sixteenth_ticks) evs active_notes)
      as [evs' active']. cbn [fst snd]. rewrite IH. reflexivity.
Qed.

Lemma py_max_scale (l : list Z) : py_max (map (Z.mul k) l) = k * py_max l.
Proof.
  destruct l as [|x0 xs]; [simpl; lia |]. cbn [map py_max].
  revert x0. induction xs as [|x xs IH]; intros x0; [reflexivity |].
  cbn [map fold_left]. rewrite Z.mul_max_distr_nonneg_l by lia. apply IH.
Qed.

Lemma slot_count_of_scale (total_ticks slot_ticks : Z) :
  0 < slot_ticks ->
  slot_count_of (k * total_ticks) (k * slot_ticks) = slot_count_of total_ticks slot_ticks.
Proof.
  intros Hs. rewrite !slot_count_of_Ok by lia. do 2 f_equal.
  assert (Hdm : total_ticks + slot_ticks - 1
                = slot_ticks * ((total_ticks + slot_ticks - 1) `div` slot_ticks)
                  + (total_ticks + slot_ticks - 1) `mod` slot_ticks)
    by (apply Z.div_mod; lia).
  pose proof (Z.mod_pos_bound (total_ticks + slot_ticks - 1) slot_ticks Hs) as Hmod.
  symmetry.
  apply (Z.div_unique_pos _ _ _
           (k * ((total_ticks + slot_ticks - 1) `mod` slot_ticks) + k - 1)); nia.
Qed.

Lemma div_scale (resolution m : Z) :
  0 < m -> resolution `mod` m = 0 -> (k * resolution) `div` m = k * (resolution `div` m).
Proof.
  intros Hm Hmod.
  assert (Hr : resolution = m * (resolution `div` m)).
  { rewrite (Z.div_mod resolution m) at 1 by lia. lia. }
  rewrite Hr at 1. replace (k * (m * (resolution `div` m)))
    with (k * (resolution `div` m) * m) by lia.
  apply Z.div_mul. lia.
Qed.

Lemma track_timeline_scale (events : list event) (sixteenth_ticks : Z) :
  0 < sixteenth_ticks ->
  track_timeline (map (scale_event k) events) (k * sixteenth_ticks)
  = track_timeline events sixteenth_ticks.
Proof.
  intros Hs. unfold track_timeline.
  assert (Hmap : map (fun e : Z * Z * evtype => e.1.1) (map (scale_event k) events)
                 = map (Z.mul k) (map (fun e : Z * Z * evtype => e.1.1) events)).
  { rewrite !map_map. apply map_ext. intros [[t n] ev]. reflexivity. }
  unfold event in *. rewrite Hmap.
  rewrite py_max_scale, slot_count_of_scale by exact Hs.
  destruct (slot_count_of _ _) as [slot_count | err]; [| reflexivity].
  cbn [mbind res_bind]. rewrite sweep_scale. reflexivity.
Qed.

Lemma track_to_audicle_scale (track : Track) (resolution : Z) :
  0 < resolution -> resolution `mod` 4 = 0 ->
  track_to_audicle (scale_track k track) (k * resolution)
  = track_to_audicle track resolution.
Proof.
  intros Hres Hmod. unfold track_to_audicle.
  rewrite (div_scale resolution 4) by (lia || assumption).
  assert (Hs : 0 < resolution `div` 4).
  { apply Z.div_str_pos. pose proof (Z.div_mod resolution 4). lia. }
  assert (Hev : track_events 0 (scale_track k track)
                = map (scale_event k) (track_events 0 track)).
  { rewrite <- track_events_scale. f_equal. lia. }
  rewrite Hev.
  destruct (track_events 0 track) as [|e events]; [reflexivity |].
  rewrite <- (track_timeline_scale (e :: events) _ Hs). reflexivity.
Qed.

Lemma dd_append_scale (note t v : Z) (d : drum_dict) :
  dd_append note (k * t, v) (scale_dict k d) = scale_dict k (dd_append note (t, v) d).
Proof.
  induction d as [|[n evs] rest IH]; [reflexivity |].
  cbn [scale_dict map dd_append fst snd]. fold (scale_dict k rest).
  destruct (decide (n = note)).
  - cbn [map fst snd]. rewrite map_app. reflexivity.
  - cbn [map fst snd]. fold (scale_dict k (dd_append note (t, v) rest)).
    rewrite IH. reflexivity.
Qed.

Lemma collect_track_scale (track : Track) (abs_time : Z) (d : drum_dict) :
  collect_track (k * abs_time) (scale_track k track) (scale_dict k d)
  = scale_dict k (collect_track abs_time track d).
Proof.
  revert abs_time d. induction track as [|msg rest IH]; intros abs_time d; [reflexivity |].
  cbn [scale_track map collect_track]. rewrite time_of_with_time.
  rewrite <- Z.mul_add_distr_l. fold (scale_track k rest).
  destruct msg; cbn [with_time]; try apply IH.
  case_decide; [rewrite dd_append_scale |]; apply IH.
Qed.

Lemma collect_drum_events_scale (trks : list Track) :
  collect_drum_events (map (scale_track k) trks) = scale_dict k (collect_drum_events trks).
Proof.
  unfold collect_drum_events.
  change (@nil (Z * list (Z * Z))) with (scale_dict k []) at 1.
  generalize (@nil (Z * list (Z * Z))).
  induction trks as [|track rest IH]; intros d; [reflexivity |].
  cbn [map fold_left]. replace 0 with (k * 0) at 1 by lia.
  rewrite collect_track_scale. apply IH.
Qed.

Lemma scale_dict_keys (d : drum_dict) : map fst (scale_dict k d) = map fst d.
Proof. unfold scale_dict. rewrite map_map. reflexivity. Qed.

Lemma dd_get_scale (note : Z) (d : drum_dict) :
  dd_get note (scale_dict k d) = map (fun ev => (k * ev.1, ev.2)) (dd_get note d).
Proof.
  induction d as [|[n evs] rest IH]; [reflexivity |].
  cbn [scale_dict map dd_get fst snd]. fold (scale_dict k rest).
  destruct (decide (n = note)); [reflexivity | exact IH].
Qed.

Lemma drum_total_ticks_scale (d : drum_dict) :
  drum_total_ticks (scale_dict k d) = k * drum_total_ticks d.
Proof.
  unfold drum_total_ticks. replace 0 with (k * 0) at 1 by lia. generalize 0.
  induction d as [|[n evs] rest IH]; intros a; [reflexivity |].
  cbn [scale_dict map fold_left fst snd]. fold (scale_dict k rest).
  destruct evs as [|ev evs]; [apply IH |].
  rewrite <- IH. f_equal. cbn [map].
  change ((k * ev.1, ev.2).1 :: map fst (map (fun ev0 : Z * Z => (k * ev0.1, ev0.2)) evs))
    with (map fst (map (fun ev0 : Z * Z => (k * ev0.1, ev0.2)) (ev :: evs))).
  rewrite map_map. cbn [fst].
  rewrite <- (map_map fst (Z.mul k)), py_max_scale.
  rewrite Z.mul_max_distr_nonneg_l by lia. reflexivity.
Qed.

Lemma drum_timeline_scale (eighth_ticks : Z) (evs : list (Z * Z))
    (timeline : list (list Z)) :
  0 < eighth_ticks ->
  drum_timeline (k * eighth_ticks) (map (fun ev => (k * ev.1, ev.2)) evs) timeline
  = drum_timeline eighth_ticks evs timeline.
Proof.
  intros He. revert timeline. induction evs as [|[t v] evs IH]; intros timeline.
  - reflexivity.
  - cbn [map drum_timeline fst snd]. rewrite !floordiv_Ok by lia.
    rewrite Z.div_mul_cancel_l by lia. cbn [mbind res_bind].
    destruct (py_index _ _) as [i | err]; [| reflexivity].
    cbn [mbind res_bind]. apply IH.
Qed.

Lemma drum_audicles_loop_scale (d : drum_dict) (slot_count eighth_ticks : Z)
    (notes : list Z) (acc : list string) :
  0 < eighth_ticks ->
  drum_audicles_loop (scale_dict k d) slot_count (k * eighth_ticks) notes acc
  = drum_audicles_loop d slot_count eighth_ticks notes acc.
Proof.
  intros He. revert acc. induction notes as [|note rest IH]; intros acc; [reflexivity |].
  cbn [drum_audicles_loop]. unfold drum_audicle.
  rewrite dd_get_scale, drum_timeline_scale by exact He.
  destruct (drum_timeline _ _ _) as [timeline | err]; [| reflexivity].
  cbn [mbind res_bind]. destruct (drum_render timeline); apply IH.
Qed.

Lemma render_drum_events_scale (d : drum_dict) (resolution : Z) :
  0 < resolution -> resolution `mod` 2 = 0 ->
  render_drum_events (scale_dict k d) (k * resolution) = render_drum_events d resolution.
Proof.
  intros Hres Hmod. unfold render_drum_events, quantize_ticks.
  assert (He : 0 < resolution `div` 2).
  { apply Z.div_str_pos. pose proof (Z.div_mod resolution 2). lia. }
  rewrite scale_dict_keys, drum_total_ticks_scale.
  rewrite (div_scale resolution 2) by (lia || assumption).
  rewrite slot_count_of_scale by exact He.
  destruct d as [|entry d]; [reflexivity |].
  change (scale_dict k (entry :: d))
    with ((entry.1, map (fun ev : Z * Z => (k * ev.1, ev.2)) entry.2) :: scale_dict k d)
    at 1.
  cbv iota.
  destruct (slot_count_of _ _) as [slot_count | err]; [| reflexivity].
  cbn [mbind res_bind]. apply drum_audicles_loop_scale, He.
Qed.

Lemma is_drum_track_scale (track : Track) :
  is_drum_track (scale_track k track) = is_drum_track track.
Proof.
  induction track as [|msg rest IH]; [reflexivity |].
  cbn [scale_track map is_drum_track]. fold (scale_track k rest). rewrite IH.
  destruct msg; reflexivity.
Qed.

Lemma melodic_audicles_scale (trks : list Track) (resolution : Z) (acc : list string) :
  0 < resolution -> resolution `mod` 4 = 0 ->
  melodic_audicles (map (scale_track k) trks) (k * resolution) acc
  = melodic_audicles trks resolution acc.
Proof.
  intros Hres Hmod. revert acc. induction trks as [|track rest IH]; intros acc; [reflexivity |].
  cbn [map melodic_audicles]. rewrite is_drum_track_scale.
  rewrite track_to_audicle_scale by assumption.
  destruct (is_drum_track track); [apply IH |].
  destruct (track_to_audicle track resolution) as [[[|c s]|]|err];
    cbn [mbind res_bind]; try apply IH; reflexivity.
Qed.

Lemma main_scale (trks : list Track) (resolution : Z) :
  0 < resolution -> resolution `mod` 4 = 0 ->
  main {| tracks := map (scale_track k) trks; ticks_per_beat := k * resolution |}
  = main {| tracks := trks; ticks_per_beat := resolution |}.
Proof.
  intros Hres Hmod. unfold main, extract_drum_audicles. cbn [tracks ticks_per_beat].
  rewrite collect_drum_events_scale, render_drum_events_scale.
  - rewrite melodic_audicles_scale by assumption. reflexivity.
  - exact Hres.
  - replace resolution with (2 * (2 * (resolution `div` 4)))
      by (pose proof (Z.div_mod resolution 4); lia).
    rewrite Z.mul_comm. apply Z.mod_mul. lia.
Qed.

End Scaling.

(** X13: the document does not depend on the unit of time: when every
    delta time and the resolution are multiplied by the same positive
    factor, a resolution that is a positive multiple of 4 gives the same
    document; so do the melodic audicle of each track and, already for a
    resolution that is a positive multiple of 2, the percussion lines. *)
Theorem document_is_scale_invariant (k : Z) (trks : list Track) (resolution : Z) :
  0 < k -> 0 < resolution -> resolution `mod` 4 = 0 ->
  main {| tracks := map (scale_track k) trks; ticks_per_beat := k * resolution |}
  = main {| tracks := trks; ticks_per_beat := resolution |} /\
  (forall track,
     track_to_audicle (scale_track k track) (k * resolution)
     = track_to_audicle track resolution) /\
  (forall resolution',
     0 < resolution' -> resolution' `mod` 2 = 0 ->
     extract_drum_audicles
       {| tracks := map (scale_track k) trks; ticks_per_beat := k * resolution' |}
       (k * resolution')
     = extract_drum_audicles
         {| tracks := trks; ticks_per_beat := resolution' |} resolution').
Proof.
  intros Hk Hres Hmod. split; [| split].
  - apply main_scale; assumption.
  - intros track. apply track_to_audicle_scale; assumption.
  - intros resolution' Hres' Hmod'. unfold extract_drum_audicles. cbn [tracks].
    rewrite collect_drum_events_scale by exact Hk.
    apply render_drum_events_scale; assumption.
Qed.

Lemma document_is_scale_invariant_witness :
  main {| tracks := map (scale_track 2) (tracks envelope_example);
          ticks_per_beat := 2 * 480 |}
  = main {| tracks := tracks envelope_example; ticks_per_beat := 480 |}.
Proof.
  apply (document_is_scale_invariant 2 (tracks envelope_example) 480).
  - lia.
  - lia.
  - reflexivity.
Defined.

(** ** The slots of a melodic grid *)

Lemma track_events_sorted (track : Track) (abs_time : Z) :
  Forall (fun msg => 0 <= time_of msg) track ->
  StronglySorted (fun e1 e2 : event => e1.1.1 <= e2.1.1) (track_events abs_time track) /\
  Forall (fun e : event => abs_time <= e.1.1) (track_events abs_time track).
Proof.
  revert abs_time. induction track as [|msg rest IH]; intros abs_time Ht.
  - split; constructor.
  - apply Forall_cons in Ht as [Hmsg Hrest].
    destruct (IH (abs_time + time_of msg) Hrest) as [Hsorted Hge].
    assert (Hge' : Forall (fun e : event => abs_time <= e.1.1)
                     (track_events (abs_time + time_of msg) rest)).
    { eapply Forall_impl; [exact Hge |]. intros e He. simpl in He. lia. }
    destruct msg; cbn [track_events]; repeat case_decide;
      first [ split; [exact Hsorted | exact Hge']
            | split; [constructor; [exact Hsorted | exact Hge]
                     | constructor; [simpl in *; lia | exact Hge']] ].
Qed.

Lemma consume_sorted (slot_end : Z) (evs : list event) (active_notes : gset Z) :
  StronglySorted (fun e1 e2 : event => e1.1.1 <= e2.1.1) evs ->
  exists read left_over,
    evs = read ++ left_over /\
    consume slot_end evs active_notes = (left_over, held_after read active_notes) /\
    Forall (fun e : event => e.1.1 < slot_end) read /\
    Forall (fun e : event => slot_end <= e.1.1) left_over /\
    StronglySorted (fun e1 e2 : event => e1.1.1 <= e2.1.1) left_over.
Proof.
  revert active_notes. induction evs as [|[[t n] ev] evs IH]; intros active_notes Hs.
  - exists [], []. repeat split; constructor.
  - apply StronglySorted_inv in Hs as [Hs Hhd]. cbn [consume].
    destruct (decide (t < slot_end)) as [Hlt | Hge].
    + destruct (IH (apply_event active_notes n ev) Hs)
        as (read & left_over & -> & Hc & Hread & Hleft & Hsl).
      exists ((t, n, ev) :: read), left_over.
      split; [reflexivity |]. split; [exact Hc |].
      split; [constructor; [exact Hlt | exact Hread] |]. split; assumption.
    + exists [], ((t, n, ev) :: evs).
      split; [reflexivity |]. split; [reflexivity |]. split; [constructor |].
      split; [| constructor; assumption].
      constructor; [simpl; lia |].
      eapply Forall_impl; [exact Hhd |]. intros e He. simpl in He. lia.
Qed.

Lemma filter_all {A : Type} (P : A -> Prop) `{forall x, Decision (P x)} (l : list A) :
  Forall P l -> filter P l = l.
Proof.
  induction 1 as [|x l Hx Hl IH]; [reflexivity |].
  rewrite filter_cons, decide_True by exact Hx. rewrite IH. reflexivity.
Qed.

Lemma filter_none {A : Type} (P : A -> Prop) `{forall x, Decision (P x)} (l : list A) :
  Forall (fun x => ~ P x) l -> filter P l = [].
Proof.
  induction 1 as [|x l Hx Hl IH]; [reflexivity |].
  rewrite filter_cons, decide_False by exact Hx. exact IH.
Qed.

Lemma sweep_lookup (sixteenth_ticks : Z) (k : nat) (m : Z) (read left_over : list event) :
  0 <= sixteenth_ticks ->
  Forall (fun e : event => e.1.1 < m * sixteenth_ticks) read ->
  Forall (fun e : event => m * sixteenth_ticks <= e.1.1) left_over ->
  StronglySorted (fun e1 e2 : event => e1.1.1 <= e2.1.1) left_over ->
  forall i : nat, (i < k)%nat ->
    sweep sixteenth_ticks (seqZ m (Z.of_nat k)) left_over (held_after read ∅) !! i
    = Some (held_after
              (filter (fun e : event => e.1.1 < (m + Z.of_nat i + 1) * sixteenth_ticks)
                 (read ++ left_over)) ∅).
Proof.
  intros Hs. revert m read left_over.
  induction k as [|k IH]; intros m read left_over Hread Hleft Hsorted i Hi; [lia |].
  rewrite seqZ_cons by lia.
  replace (Z.pred (Z.of_nat (S k))) with (Z.of_nat k) by lia.
  cbn [sweep].
  destruct (consume_sorted (m * sixteenth_ticks + sixteenth_ticks) left_over
              (held_after read ∅) Hsorted)
    as (c & r & -> & -> & Hc & Hr & Hsr).
  cbv beta iota.
  assert (Hread' : Forall (fun e : event => e.1.1 < Z.succ m * sixteenth_ticks) (read ++ c)).
  { apply Forall_app. split.
    - eapply Forall_impl; [exact Hread |]. intros e He. simpl in He. nia.
    - eapply Forall_impl; [exact Hc |]. intros e He. simpl in He. nia. }
  assert (Hr' : Forall (fun e : event => Z.succ m * sixteenth_ticks <= e.1.1) r).
  { eapply Forall_impl; [exact Hr |]. intros e He. simpl in He. nia. }
  assert (Hheld : held_after c (held_after read ∅) = held_after (read ++ c) ∅).
  { unfold held_after. rewrite fold_left_app. reflexivity. }
  rewrite Hheld. destruct i as [|j].
  - cbn [lookup list_lookup]. f_equal. f_equal.
    rewrite app_assoc, filter_app.
    rewrite (filter_all _ (read ++ c)), (filter_none _ r), app_nil_r; [reflexivity | |].
    + eapply Forall_impl; [exact Hr' |]. intros e He. simpl in He. simpl. lia.
    + eapply Forall_impl; [exact Hread' |]. intros e He. simpl in He. simpl. lia.
  - cbn [lookup list_lookup].
    etransitivity; [apply (IH (Z.succ m) (read ++ c) r Hread' Hr' Hsr j); lia |].
    rewrite <- app_assoc.
    replace (Z.succ m + Z.of_nat j + 1) with (m + Z.of_nat (S j) + 1) by lia.
    reflexivity.
Qed.

(** X14: the quantization of a melodic track: with a positive slot width
    and non-negative delta times, slot [i] of the grid holds exactly the
    pitches held once the events with an absolute time before the end of
    the slot, (i + 1) times the slot width, are applied in order. *)
Theorem melodic_grid_slots (track : Track) (resolution : Z) (grid : list (gset Z)) :
  4 <= resolution ->
  Forall (fun msg => 0 <= time_of msg) track ->
  track_events 0 track <> [] ->
  track_grid track resolution = Ok grid ->
  forall (i : nat) (notes : gset Z),
    grid !! i = Some notes ->
    notes = held_after
              (filter (fun e : event => e.1.1 < (Z.of_nat i + 1) * (resolution `div` 4))
                 (track_events 0 track)) ∅.
Proof.
  intros Hres Ht _ Hgrid i notes Hi.
  assert (Hs : 0 < resolution `div` 4) by (apply Z.div_str_pos; lia).
  destruct (track_events_sorted track 0 Ht) as [Hsorted Hge].
  unfold track_grid, track_timeline in Hgrid.
  apply bind_Ok in Hgrid as (slot_count & _ & Hgrid). injection Hgrid as <-.
  assert (Hlen : (i < Z.to_nat slot_count)%nat).
  { apply lookup_lt_Some in Hi. rewrite sweep_length, length_seqZ in Hi. exact Hi. }
  assert (Hseq : seqZ 0 slot_count = seqZ 0 (Z.of_nat (Z.to_nat slot_count))).
  { unfold seqZ. rewrite Nat2Z.id. reflexivity. }
  rewrite Hseq in Hi.
  change (∅ : gset Z) with (held_after [] ∅) in Hi at 1.
  rewrite (sweep_lookup (resolution `div` 4) (Z.to_nat slot_count) 0 []
             (track_events 0 track)) in Hi.
  - injection Hi as <-. reflexivity.
  - lia.
  - constructor.
  - eapply Forall_impl; [exact Hge |]. intros e He. simpl in He. lia.
  - exact Hsorted.
  - exact Hlen.
Qed.

Lemma melodic_grid_slots_witness :
  ({[60]} : gset Z)
  = held_after
      (filter (fun e : event => e.1.1 < (Z.of_nat 1 + 1) * (480 `div` 4))
         (track_events 0 [NoteOn 0 60 64 0; NoteOff 0 60 0 480])) ∅.
Proof.
  apply (melodic_grid_slots [NoteOn 0 60 64 0; NoteOff 0 60 0 480] 480
           [{[60]}; {[60]}; {[60]}; {[60]}; ∅]).
  - lia.
  - repeat first [apply List.Forall_nil | apply List.Forall_cons]; simpl; lia.
  - discriminate.
  - vm_compute. reflexivity.
  - reflexivity.
Defined.

(** ** What the trimming keeps *)

Lemma drum_token_rest_iff (velocities : list Z) :
  drum_token velocities = "_" <-> velocities = [].
Proof.
  split; [| intros ->; reflexivity].
  intros H. destruct velocities as [|v vs]; [reflexivity |].
  exfalso. revert H. apply drum_token_not_rest. discriminate.
Qed.

Lemma midi_note_to_mida_not_dot (note : Z) (t : string) :
  midi_note_to_mida note <> "." /\ midi_note_to_mida note +:+ t <> ".".
Proof.
  unfold midi_note_to_mida.
  assert (Hm : 0 <= note `mod` 12 < 12) by (apply Z.mod_pos_bound; lia).
  assert (Hr : (Z.to_nat (note `mod` 12) < 12)%nat) by lia. clear Hm.
  generalize dependent (Z.to_nat (note `mod` 12)). intros r Hr.
  generalize (pretty (note `div` 12 - 1)). intros o.
  destruct r as [|[|[|[|[|[|[|[|[|[|[|[|r]]]]]]]]]]]]; [.. | lia];
    cbn; split; discriminate.
Qed.

Lemma mida_token_rest_iff (prev notes : gset Z) :
  mida_token prev notes = "." <-> notes = ∅.
Proof.
  unfold mida_token. split.
  - destruct (decide (notes = ∅)) as [-> | Hne]; [reflexivity |].
    destruct (decide (notes = prev)); [discriminate |].
    intros H. exfalso.
    destruct (sorted (elements notes)) as [|x l] eqn:E.
    + discriminate H.
    + cbn [map] in H. unfold join in H. cbn [String.concat] in H.
      destruct (map midi_note_to_mida l).
      * exact (proj1 (midi_note_to_mida_not_dot x "") H).
      * exact (proj2 (midi_note_to_mida_not_dot x _) H).
  - intros ->. rewrite decide_True by reflexivity. reflexivity.
Qed.

Lemma drum_trim_keeps (timeline : list (list Z)) :
  exists (kept : list (list Z)) (k : nat),
    timeline = kept ++ replicate k [] /\
    (forall slot, last kept = Some slot -> slot <> []) /\
    pop_trailing "_" (map drum_token timeline) = map drum_token kept.
Proof.
  induction timeline as [|slot rest (kept & k & -> & Hlast & Hpop)].
  - exists [], 0%nat. split; [reflexivity |]. split; [discriminate | reflexivity].
  - cbn [map pop_trailing]. rewrite Hpop. destruct kept as [|s0 kept].
    + cbn [map]. destruct (decide (drum_token slot = "_")) as [Hrest | Hsound].
      * apply drum_token_rest_iff in Hrest as ->.
        exists [], (S k). split; [reflexivity |]. split; [discriminate | reflexivity].
      * exists [slot], k. split; [reflexivity |]. split; [| reflexivity].
        intros s [= <-] ->. apply Hsound. reflexivity.
    + exists (slot :: s0 :: kept), k. split; [reflexivity |]. split; [| reflexivity].
      intros s. rewrite last_cons_cons. apply Hlast.
Qed.

Lemma melodic_trim_keeps (prev : gset Z) (timeline : list (gset Z)) :
  exists (kept : list (gset Z)) (k : nat),
    timeline = kept ++ replicate k ∅ /\
    (forall notes, last kept = Some notes -> notes <> ∅) /\
    pop_trailing "." (mida_tokens prev timeline) = mida_tokens prev kept.
Proof.
  revert prev. induction timeline as [|notes rest IH]; intros prev.
  - exists [], 0%nat. split; [reflexivity |]. split; [discriminate | reflexivity].
  - destruct (IH notes) as (kept & k & -> & Hlast & Hpop).
    cbn [mida_tokens pop_trailing]. rewrite Hpop. destruct kept as [|s0 kept].
    + cbn [mida_tokens]. destruct (decide (mida_token prev notes = ".")) as [Hrest | Hsound].
      * apply mida_token_rest_iff in Hrest as ->.
        exists [], (S k). split; [reflexivity |]. split; [discriminate | reflexivity].
      * exists [notes], k. split; [reflexivity |]. split; [| reflexivity].
        intros s [= <-] ->. apply Hsound. apply mida_token_rest_iff. reflexivity.
    + exists (notes :: s0 :: kept), k. split; [reflexivity |]. split; [| reflexivity].
      intros s. rewrite last_cons_cons. apply Hlast.
Qed.

(** X15: the trimming drops exactly the silent slots after the last
    sounding one: a percussion slot with a hit never renders as the rest
    token, a melodic slot holding a pitch never renders as the dot, so no
    sounding slot is dropped and every kept slot keeps its token. *)
Theorem trimming_keeps_every_sounding_slot :
  (forall timeline : list (list Z),
     exists (kept : list (list Z)) (k : nat),
       timeline = kept ++ replicate k [] /\
       (forall slot, last kept = Some slot -> slot <> []) /\
       pop_trailing "_" (map drum_token timeline) = map drum_token kept) /\
  (forall timeline : list (gset Z),
     exists (kept : list (gset Z)) (k : nat),
       timeline = kept ++ replicate k ∅ /\
       (forall notes, last kept = Some notes -> notes <> ∅) /\
       pop_trailing "." (mida_tokens ∅ timeline) = mida_tokens ∅ kept) /\
  (forall velocities : list Z, drum_token velocities = "_" <-> velocities = []) /\
  (forall prev notes : gset Z, mida_token prev notes = "." <-> notes = ∅).
Proof.
  split; [exact drum_trim_keeps |].
  split; [exact (melodic_trim_keeps ∅) |].
  split; [exact drum_token_rest_iff | exact mida_token_rest_iff].
Qed.
